(** * Compression algorithms of Algorithm_In_Python: a shallow embedding

    The development follows the three modules under [compression/]:
    [burrows_wheeler.py], [huffman.py] and [lempel_ziv.py].

    Modelling conventions.
    - A Python [str] is a list of characters ([list ascii], so characters
      are the code points below 256); characters are compared by code
      point and strings lexicographically, as Python does.  A Huffman
      symbol is a [str], as the annotations of [huffman.py] say.
    - Arguments have the types of the annotations: the [isinstance] checks
      of [burrows_wheeler.py] never fire, and [TypeError] is never raised.
    - A Python exception is a value of [exn]; a function with a [raise], an
      index or a key lookup that can fail returns an [outcome].  Functions
      without any of these are plain functions.
    - [list.sort] and [sorted] are stable sorts; they are modelled by a
      stable insertion sort (the stable sort of a list is unique).
    - A [dict] whose iteration order is observed is an association list in
      insertion order; the LZ lexicon, which is only looked up and updated,
      is a [gmap].
    - A [for] loop over a list or a range is a fold; the [while] loop of
      [build_tree] is a recursion on the length of its list; the [while]
      loop of [compress_data], which does not end on every input, takes
      fuel.
    - File contents are lists of bytes; [os.path.getsize] is a parameter. *)

From Stdlib Require Import Strings.Ascii Strings.String Strings.Byte.
From stdpp Require Import gmap strings list fin_maps sorting.
From Equations Require Import Equations.

Abbreviation str := (list ascii).

(** String literals are read as lists of characters. *)
Coercion list_ascii_of_string : string >-> list.

Inductive exn : Type :=
  | ValueError
  | TypeError
  | IndexError
  | KeyError
  | OverflowError.

Inductive outcome (A : Type) : Type :=
  | Returns (a : A)
  | Raises (e : exn).
Arguments Returns {A} a.
Arguments Raises {A} e.

#[global] Instance outcome_ret : MRet outcome := fun A a => Returns a.
#[global] Instance outcome_bind : MBind outcome := fun A B k o =>
  match o with
  | Returns a => k a
  | Raises e => Raises e
  end.

Definition of_option {A} (e : exn) (o : option A) : outcome A :=
  match o with
  | Some a => Returns a
  | None => Raises e
  end.

(** ** Python's ordering of strings and its stable sort *)

Definition char_ltb (a b : ascii) : bool := (N_of_ascii a <? N_of_ascii b)%N.

Fixpoint str_leb (s t : str) : bool :=
  match s, t with
  | [], _ => true
  | _ :: _, [] => false
  | a :: s', b :: t' =>
      if decide (a = b) then str_leb s' t' else char_ltb a b
  end.

Definition str_le (s t : str) : Prop := str_leb s t = true.

Section Sort.
Context {A : Type} (leb : A -> A -> bool).

Fixpoint insert_sorted (x : A) (l : list A) : list A :=
  match l with
  | [] => [x]
  | y :: l' => if leb x y then x :: l else y :: insert_sorted x l'
  end.

(** [sort l]: every element is put in front of the elements of the sorted
    tail that are not smaller, so equal elements keep their order. *)
Definition sort (l : list A) : list A := foldr insert_sorted [] l.

(** Sorting keeps the number of elements; the loop of [build_tree]
    terminates by this. *)
Lemma length_insert_sorted x l : length (insert_sorted x l) = S (length l).
Proof.
  induction l as [|y l IH]; simpl; [done|].
  destruct (leb x y); simpl; lia.
Qed.

Lemma length_sort l : length (sort l) = length l.
Proof.
  induction l as [|x l IH]; simpl; [done|].
  rewrite length_insert_sorted. lia.
Qed.
End Sort.

(** ** burrows_wheeler.py *)
Module BWT.

(** [[s[i:] + s[:i] for i in range(len(s))]] *)
Definition all_rotations (s : str) : list str :=
  map (fun i => drop i s ++ take i s) (seq 0 (length s)).

(** [rotations.index(s)] *)
Fixpoint index (s : str) (l : list str) : option nat :=
  match l with
  | [] => None
  | r :: l' => if decide (r = s) then Some 0 else S <$> index s l'
  end.

Record BWTTransformDict := {
  bwt_string : str;
  idx_original_string : Z
}.

Definition bwt_transform (s : str) : outcome BWTTransformDict :=
  if decide (s = []) then Raises ValueError
  else
    let rotations := sort str_leb (all_rotations s) in
    lasts ← of_option IndexError (mapM last rotations);
    i ← of_option ValueError (index s rotations);
    Returns {| bwt_string := lasts; idx_original_string := Z.of_nat i |}.

(** One pass of the inner loop:
    [ordered_rotations[i] = bwt_string[i] + ordered_rotations[i]]. *)
Definition prepend_at (bwt_string : str) (rows : list str) (i : nat)
  : option (list str) :=
  c ← bwt_string !! i; r ← rows !! i; Some (<[i := c :: r]> rows).

Fixpoint prepend_all (bwt_string : str) (idxs : list nat) (rows : list str)
  : option (list str) :=
  match idxs with
  | [] => Some rows
  | i :: rest => rows' ← prepend_at bwt_string rows i;
                prepend_all bwt_string rest rows'
  end.

(** The outer loop, [rounds] iterations of prepend-and-sort. *)
Fixpoint rebuild (bwt_string : str) (rounds : nat) (rows : list str)
  : option (list str) :=
  match rounds with
  | 0 => Some rows
  | S k =>
      rows' ← prepend_all bwt_string (seq 0 (length bwt_string)) rows;
      rebuild bwt_string k (sort str_leb rows')
  end.

Definition reverse_bwt (bwt_string : str) (idx_original_string : Z)
  : outcome str :=
  if decide (bwt_string = []) then Raises ValueError
  else if (idx_original_string <? 0)%Z then Raises ValueError
  else if (idx_original_string >=? Z.of_nat (length bwt_string))%Z
  then Raises ValueError
  else
    let n := length bwt_string in
    ordered_rotations ← of_option IndexError
                          (rebuild bwt_string n (replicate n []));
    of_option IndexError (ordered_rotations !! Z.to_nat idx_original_string).

End BWT.

(** ** huffman.py *)
Module Huffman.

(** A [dict] in insertion order: [d[k] = v] overwrites in place when the
    key is present and appends otherwise. *)
Section Dict.
Context {K V : Type} `{EqDecision K}.

Fixpoint dict_get (d : list (K * V)) (k : K) : option V :=
  match d with
  | [] => None
  | (k', v) :: d' => if decide (k' = k) then Some v else dict_get d' k
  end.

Fixpoint dict_set (d : list (K * V)) (k : K) (v : V) : list (K * V) :=
  match d with
  | [] => [(k, v)]
  | (k', v') :: d' =>
      if decide (k' = k) then (k, v) :: d' else (k', v') :: dict_set d' k v
  end.

(** [{k: v for k, v in items}] *)
Definition dict_of_items (items : list (K * V)) : list (K * V) :=
  foldl (fun d kv => dict_set d kv.1 kv.2) [] items.
End Dict.

Record Letter := {
  letter : str;
  freq : nat;
  bitstring : list (str * str)
}.

(** [Letter(letter, freq)]: the [bitstring] dict starts empty. *)
Definition new_Letter (c : str) (f : nat) : Letter :=
  {| letter := c; freq := f; bitstring := [] |}.

Inductive tree : Type :=
  | Leaf (l : Letter)
  | TreeNode (node_freq : nat) (left_ right_ : tree).

(** The attribute [.freq], which both classes have. *)
Definition tree_freq (t : tree) : nat :=
  match t with
  | Leaf l => freq l
  | TreeNode f _ _ => f
  end.

Record HuffmanDict := {
  Huf_encode : list str;
  Huf_letters : list (str * str)
}.

Definition count_chars (raw_file_list : list str) : list (str * nat) :=
  foldl (fun chars c =>
           dict_set chars c
             (match dict_get chars c with Some n => n + 1 | None => 1 end))
        [] raw_file_list.

Definition parse_file (raw_file_list : list str) : list Letter :=
  sort (fun x y => freq x <=? freq y)
       (map (fun cf => new_Letter cf.1 cf.2) (count_chars raw_file_list)).

Definition tree_leb (x y : tree) : bool := tree_freq x <=? tree_freq y.

(** The [while len(response) > 1] loop. *)
Equations? build_tree_loop (response : list tree) : list tree
  by wf (length response) lt :=
  build_tree_loop (left_ :: right_ :: rest) :=
    build_tree_loop
      (sort tree_leb
         (rest ++
          [TreeNode (tree_freq left_ + tree_freq right_) left_ right_]));
  build_tree_loop response := response.
Proof. rewrite length_sort, length_app. simpl. lia. Qed.

Definition build_tree (letters : list Letter) : outcome tree :=
  of_option IndexError (head (build_tree_loop (map Leaf letters))).

Fixpoint traverse_tree (root : tree) (acc : str) : list Letter :=
  match root with
  | Leaf l =>
      [ {| letter := letter l; freq := freq l;
           bitstring := dict_set (bitstring l) (letter l) acc |} ]
  | TreeNode _ left_ right_ =>
      traverse_tree left_ (acc ++ "0") ++ traverse_tree right_ (acc ++ "1")
  end.

Definition huffman_encode (raw_file_list : list str) : outcome HuffmanDict :=
  let letters_list := parse_file raw_file_list in
  root ← build_tree letters_list;
  let letters :=
    dict_of_items (flat_map bitstring (traverse_tree root [])) in
  encode_list ← of_option KeyError (mapM (dict_get letters) raw_file_list);
  Returns {| Huf_encode := encode_list; Huf_letters := letters |}.

Fixpoint return_key (huf_letters : list (str * str)) (item : str) : str :=
  match huf_letters with
  | [] => "Key Not Found"
  | (key, value) :: rest =>
      if decide (value = item) then key else return_key rest item
  end.

Definition huffman_decode (huf_file : HuffmanDict) : list str :=
  map (return_key (Huf_letters huf_file)) (Huf_encode huf_file).

(** The dict that [bwt_huffman_encode] returns: the one of
    [huffman_encode] with the key ["idx_original_string"] added. *)
Record BWTHuffmanDict := {
  Huf_dict : HuffmanDict;
  Huf_idx_original_string : Z
}.

Definition bwt_huffman_encode (raw_file_list : list str)
  : outcome BWTHuffmanDict :=
  bwt_result ← BWT.bwt_transform (concat raw_file_list);
  let temp := map (fun ch : ascii => [ch]) (BWT.bwt_string bwt_result) in
  bwt_huffman_result ← huffman_encode temp;
  Returns {| Huf_dict := bwt_huffman_result;
             Huf_idx_original_string :=
               BWT.idx_original_string bwt_result |}.

Definition bwt_huffman_decode (huf_file : BWTHuffmanDict) : outcome str :=
  let huf_decode := huffman_decode (Huf_dict huf_file) in
  BWT.reverse_bwt (concat huf_decode) (Huf_idx_original_string huf_file).

End Huffman.

(** ** lempel_ziv.py *)
Module LZ.

(** [bin(n)[2:]] *)
Fixpoint bin_pos (p : positive) : str :=
  match p with
  | xH => "1"
  | xO q => bin_pos q ++ "0"
  | xI q => bin_pos q ++ "1"
  end.

Definition bin (n : N) : str :=
  match n with
  | N0 => "0"
  | Npos p => bin_pos p
  end.

(** [math.log2(index).is_integer()]: [index] is a power of two.  (The
    source computes the logarithm in double precision; the test is exact
    for every index below [2^47], far beyond any input that fits in
    memory.) *)
Fixpoint log2_is_integer (index : positive) : bool :=
  match index with
  | xH => true
  | xO q => log2_is_integer q
  | xI _ => false
  end.

(** The local variables of the two coders. [index] starts at
    [len(lexicon) = 2] and is only incremented. *)
Record state := {
  lexicon : gmap str str;
  result : str;
  curr_string : str;
  index : positive
}.

Definition initial : state :=
  {| lexicon := {[ ("0" : str) := ("0" : str); ("1" : str) := ("1" : str) ]};
     result := []; curr_string := []; index := 2 |}.

Definition add_key_to_lexicon (lexicon : gmap str str) (curr_string : str)
    (index : positive) (last_match_id : str) : gmap str str :=
  let lexicon := delete curr_string lexicon in
  let lexicon := <[curr_string ++ "0" := last_match_id]> lexicon in
  let lexicon :=
    if log2_is_integer index then (fun v => "0" ++ v) <$> lexicon
    else lexicon in
  <[curr_string ++ "1" := bin_pos index]> lexicon.

(** The body of the scanning loop of [compress_data] once [curr_string]
    is in the lexicon. *)
Definition compress_match (st : state) (curr_string last_match_id : str)
  : state :=
  {| lexicon := add_key_to_lexicon (lexicon st) curr_string (index st)
                  last_match_id;
     result := result st ++ last_match_id;
     curr_string := [];
     index := Pos.succ (index st) |}.

(** One iteration of the scanning loop of [compress_data]. *)
Definition compress_step (st : state) (ch : ascii) : state :=
  let curr_string := curr_string st ++ [ch] in
  match lexicon st !! curr_string with
  | None =>
      {| lexicon := lexicon st; result := result st;
         curr_string := curr_string; index := index st |}
  | Some last_match_id => compress_match st curr_string last_match_id
  end.

(** [while curr_string != "" and curr_string not in lexicon:
      curr_string += "0"]; [None] when the fuel runs out. *)
Fixpoint pad_loop (fuel : nat) (lexicon : gmap str str) (curr_string : str)
  : option str :=
  if decide (curr_string = []) then Some curr_string
  else match lexicon !! curr_string with
       | Some _ => Some curr_string
       | None =>
           match fuel with
           | 0 => None
           | S fuel' => pad_loop fuel' lexicon (curr_string ++ "0")
           end
       end.

Definition compress_data (fuel : nat) (data_bits : str) : option str :=
  let st := foldl compress_step initial data_bits in
  curr_string ← pad_loop fuel (lexicon st) (curr_string st);
  if decide (curr_string = []) then Some (result st)
  else
    last_match_id ← lexicon st !! curr_string;
    Some (result st ++ last_match_id).

(** The lexicon of [decompress_data] after a match: the matched code now
    stands for the string followed by ["0"], every code gets a leading
    ["0"] when [index] is a power of two, and the code of [index] stands
    for the string followed by ["1"]. *)
Definition add_code_to_lexicon (lexicon : gmap str str) (curr_string : str)
    (index : positive) (last_match_id : str) : gmap str str :=
  let lexicon := <[curr_string := last_match_id ++ "0"]> lexicon in
  let lexicon :=
    if log2_is_integer index
    then kmap (fun curr_key : str => "0" ++ curr_key) lexicon
    else lexicon in
  <[bin_pos index := last_match_id ++ "1"]> lexicon.

(** The body of the loop of [decompress_data] once [curr_string] is in
    the lexicon. *)
Definition decompress_match (st : state) (curr_string last_match_id : str)
  : state :=
  {| lexicon := add_code_to_lexicon (lexicon st) curr_string (index st)
                  last_match_id;
     result := result st ++ last_match_id;
     curr_string := [];
     index := Pos.succ (index st) |}.

(** One iteration of the loop of [decompress_data]. *)
Definition decompress_step (st : state) (ch : ascii) : state :=
  let curr_string := curr_string st ++ [ch] in
  match lexicon st !! curr_string with
  | None =>
      {| lexicon := lexicon st; result := result st;
         curr_string := curr_string; index := index st |}
  | Some last_match_id => decompress_match st curr_string last_match_id
  end.

Definition decompress_data (data_bits : str) : str :=
  result (foldl decompress_step initial data_bits).

(** The size prefix is skipped up to the first ["1"]; slices past the end
    are empty. *)
Fixpoint count_prefix (data_bits : str) : nat :=
  match data_bits with
  | [] => 0
  | letter :: rest =>
      if decide (letter = "1"%char) then 0 else S (count_prefix rest)
  end.

Definition remove_prefix (data_bits : str) : str :=
  let counter := count_prefix data_bits in
  let data_bits := drop counter data_bits in
  drop (counter + 1) data_bits.

(** [file_length] is what [os.path.getsize(source_path)] returns. *)
Definition add_file_length (file_length : N) (compressed : str) : str :=
  let file_length_binary := bin file_length in
  let length_length := length file_length_binary in
  replicate (length_length - 1) "0"%char ++ file_length_binary ++ compressed.

(** [int(elem, 2)] on a string of binary digits.  [None] stands for every
    other argument: the empty string and most strings with another
    character make [int] raise [ValueError]; the few longer literals that
    [int] also reads (a sign, blanks, underscores, a ["0b"] prefix) are
    left out of the model. *)
Definition bit_value (c : ascii) : option N :=
  if decide (c = "0"%char) then Some 0%N
  else if decide (c = "1"%char) then Some 1%N
  else None.

Definition int2 (elem : str) : option N :=
  if decide (elem = []) then None
  else foldl (fun acc c => n ← acc; b ← bit_value c; Some (2 * n + b)%N)
             (Some 0%N) elem.

(** [range(0, n, step)] *)
Definition range_step (n step : nat) : list nat :=
  map (fun j => j * step) (seq 0 (Nat.div (n + step - 1) step)).

(** [[to_write[i : i + byte_length]
      for i in range(0, len(to_write), byte_length)]] *)
Definition byte_chunks (byte_length : nat) (to_write : str) : list str :=
  map (fun i => take byte_length (drop i to_write))
      (range_step (length to_write) byte_length).

(** The end marker: a new element ["10000000"] when the last element is
    full, and otherwise ["1"] and zeros appended to the last element.
    [result_byte_array[-1]] raises [IndexError] on an empty list. *)
Definition pad_byte_array (byte_length : nat) (result_byte_array : list str)
  : outcome (list str) :=
  last_elem ← of_option IndexError (last result_byte_array);
  Returns
    (if length last_elem mod byte_length =? 0
     then result_byte_array ++ [ "10000000" : str ]
     else <[ length result_byte_array - 1 :=
               last_elem ++ "1" ++
               replicate (byte_length - length last_elem - 1) "0"%char ]>
            result_byte_array).

(** [int(elem, 2).to_bytes(1, byteorder="big")] *)
Definition to_byte (elem : str) : outcome byte :=
  n ← of_option ValueError (int2 elem);
  of_option OverflowError (Byte.of_N n).

(** The bytes that [write_file_binary] writes to the file. *)
Definition write_file_binary (to_write : str) : outcome (list byte) :=
  let byte_length := 8 in
  result_byte_array ←
    pad_byte_array byte_length (byte_chunks byte_length to_write);
  mapM to_byte result_byte_array.

(** [f"{dat:08b}"] *)
Definition format_08b (dat : byte) : str :=
  let digits := bin (Byte.to_N dat) in
  replicate (8 - length digits) "0"%char ++ digits.

(** The bit string that [read_file_binary] builds from the file's bytes. *)
Definition read_file_binary (data : list byte) : str :=
  flat_map format_08b data.

(** [s.split(sep)] for a separator of one character. *)
Fixpoint split (sep : ascii) (s : str) : list str :=
  match s with
  | [] => [[]]
  | c :: s' =>
      if decide (c = sep) then [] :: split sep s'
      else match split sep s' with
           | w :: ws => (c :: w) :: ws
           | [] => [[c]]
           end
  end.

(** [sep.join(l)] *)
Fixpoint join (sep : str) (l : list str) : str :=
  match l with
  | [] => []
  | w :: ws =>
      match ws with
      | [] => w
      | _ :: _ => w ++ sep ++ join sep ws
      end
  end.

(** [l[-k]] and [l[-k] = x] for [k >= 1]: [IndexError] when the list has
    fewer than [k] elements. *)
Definition get_from_end {A} (l : list A) (k : nat) : outcome A :=
  if decide (k <= length l) then of_option IndexError (l !! (length l - k))
  else Raises IndexError.

Definition set_from_end {A} (l : list A) (k : nat) (x : A)
  : outcome (list A) :=
  if decide (k <= length l) then Returns (<[length l - k := x]> l)
  else Raises IndexError.

(** The first four lines of [lz_compress] and of [lz_decompress]: the
    name before the last ["."] gets [suffix] and the extension becomes
    [extension]. *)
Definition destination_path (suffix extension source_path : str)
  : outcome str :=
  let path_list := split "." source_path in
  name ← get_from_end path_list 2;
  path_list ← set_from_end path_list 2 (name ++ suffix);
  path_list ← set_from_end path_list 1 extension;
  Returns (join "." path_list).

(** [lz_compress], with the file system reduced to what the function
    reads and writes: [data] is the content of the file at [source_path]
    (so [os.path.getsize] is its length), and the result is the path and
    the content of the file that is written.  The fuel is that of
    [compress_data]. *)
Definition lz_compress (fuel : nat) (source_path : str) (data : list byte)
  : option (outcome (str * list byte)) :=
  match destination_path "_compressed" "ziv" source_path with
  | Raises e => Some (Raises e)
  | Returns destination_path =>
      let data_bits := read_file_binary data in
      compressed ← compress_data fuel data_bits;
      let compressed :=
        add_file_length (N.of_nat (length data)) compressed in
      Some (written ← write_file_binary compressed;
            Returns (destination_path, written))
  end.

(** [lz_decompress], in the same way. *)
Definition lz_decompress (source_path file_format : str) (data : list byte)
  : outcome (str * list byte) :=
  destination_path ← destination_path "_decompressed" file_format source_path;
  let data_bits := read_file_binary data in
  let data_bits := remove_prefix data_bits in
  let decompressed := decompress_data data_bits in
  written ← write_file_binary decompressed;
  Returns (destination_path, written).

(** A bit string: only the characters ["0"] and ["1"]. *)
Definition is_bit (c : ascii) : Prop := c = "0"%char \/ c = "1"%char.
Definition bits (s : str) : Prop := Forall is_bit s.

End LZ.


(** ** Auxiliary notions used in the statements and proofs *)

(** [rotr r]: the rotation of [r] by one position to the right. *)
Definition rotr (r : str) : str :=
  match last r with
  | Some c => c :: removelast r
  | None => []
  end.

(** The table of the rotations of [s] in sorted order. *)
Definition sorted_rotations (s : str) : list str :=
  sort str_leb (BWT.all_rotations s).

(** The leaves of a Huffman tree, from left to right. *)
Fixpoint leaves (t : Huffman.tree) : list Huffman.Letter :=
  match t with
  | Huffman.Leaf l => [l]
  | Huffman.TreeNode _ left_ right_ => leaves left_ ++ leaves right_
  end.

(** The symbol of every leaf with the path that leads to it, the paths
    starting from [acc]. *)
Fixpoint paths (t : Huffman.tree) (acc : str) : list (str * str) :=
  match t with
  | Huffman.Leaf l => [(Huffman.letter l, acc)]
  | Huffman.TreeNode _ left_ right_ =>
      paths left_ (acc ++ "0") ++ paths right_ (acc ++ "1")
  end.

(** Neither string is a prefix of the other. *)
Definition incomparable (x y : str) : Prop :=
  ~ x `prefix_of` y /\ ~ y `prefix_of` x.

(** The number that a string of binary digits denotes. *)
Definition bit_val (s : str) : N :=
  foldl (fun acc c => if decide (c = "1"%char) then 2 * acc + 1 else 2 * acc)%N
        0%N s.

(** The lexicons of the two coders stay in step: with [L] the lexicon of
    [compress_data] and [D] the one of [decompress_data] at the same
    [index],
    - every code that [L] gives to a string is a key of [D] for that string;
    - the keys of [D] all have the width of [index - 1] and denote
      numbers below [index];
    - every bit string has a prefix among the keys of [L], or becomes a
      key of [L] when some ["0"]s are appended;
    - the keys of [L] are non-empty and shorter than [index]. *)
Record lexicons_agree (L D : gmap str str) (index : positive) : Prop := {
  agree_index : (1 < index)%positive;
  agree_code : forall s c, L !! s = Some c -> D !! c = Some s;
  agree_width : forall c s, D !! c = Some s ->
    length c = Pos.size_nat (Pos.pred index) /\ (bit_val c < Npos index)%N;
  agree_complete : forall t, LZ.bits t ->
    (exists p, p `prefix_of` t /\ is_Some (L !! p)) \/
    (exists k, is_Some (L !! (t ++ replicate (S k) "0"%char)));
  agree_nonempty : L !! [] = None;
  agree_length : forall s c, L !! s = Some c -> length s < Pos.to_nat index
}.

(** [widen b c]: the code [c] after the step of an index for which
    [log2_is_integer] gave [b]. *)
Definition widen (b : bool) (c : str) : str := if b then "0"%char :: c else c.

(** The frequencies of a Huffman tree are consistent: every inner node
    holds the sum of the frequencies of its two children. *)
Fixpoint tree_sums (t : Huffman.tree) : Prop :=
  match t with
  | Huffman.Leaf _ => True
  | Huffman.TreeNode f left_ right_ =>
      f = Huffman.tree_freq left_ + Huffman.tree_freq right_ /\
      tree_sums left_ /\ tree_sums right_
  end.

(** The number of occurrences of [c] in [l]. *)
Definition occurrences (c : str) (l : list str) : nat :=
  length (filter (fun x => x = c) l).

(** * Properties *)

(** ** The examples of the docstrings *)

Example bwt_transform_docstring :
  BWT.bwt_transform "a_asa_da_casa" =
  Returns {| BWT.bwt_string := "aaaadss_c__aa";
             BWT.idx_original_string := 3 |}.
Proof. reflexivity. Qed.

Example reverse_bwt_docstring :
  BWT.reverse_bwt "aaaadss_c__aa" 3
  = Returns (list_ascii_of_string "a_asa_da_casa").
Proof. reflexivity. Qed.

Example huffman_encode_docstring :
  Huffman.huffman_encode
    [ "a" : str; "a" : str; "a" : str; "a" : str; "d" : str; "s" : str;
      "s" : str; "_" : str; "c" : str; "_" : str; "_" : str; "a" : str;
      "a" : str ] =
  Returns
    {| Huffman.Huf_encode :=
         [ "0" : str; "0" : str; "0" : str; "0" : str; "1110" : str;
           "110" : str; "110" : str; "10" : str; "1111" : str; "10" : str;
           "10" : str; "0" : str; "0" : str ];
       Huffman.Huf_letters :=
         [ ("a" : str, "0" : str); ("_" : str, "10" : str);
           ("s" : str, "110" : str); ("d" : str, "1110" : str);
           ("c" : str, "1111" : str) ] |}.
Proof. reflexivity. Qed.

Example compress_data_0101101 :
  LZ.compress_data 2 "0101101" = Some (list_ascii_of_string "00110001001").
Proof. reflexivity. Qed.

Example decompress_data_0101101 :
  LZ.decompress_data "00110001001" = list_ascii_of_string "010110100".
Proof. reflexivity. Qed.

(** ** The stable sort *)
Section SortFacts.
Context {A : Type} (leb : A -> A -> bool).

Let R (x y : A) : Prop := leb x y = true.

Lemma insert_sorted_perm x l : insert_sorted leb x l ≡ₚ x :: l.
Proof.
  induction l as [|y l IH]; simpl; [done|].
  destruct (leb x y); [done|].
  rewrite IH. apply Permutation_swap.
Qed.

Lemma sort_perm l : sort leb l ≡ₚ l.
Proof.
  induction l as [|x l IH]; simpl; [done|].
  rewrite insert_sorted_perm. by f_equiv.
Qed.

Hypothesis leb_total : forall x y, leb x y = true \/ leb y x = true.
Hypothesis leb_trans :
  forall x y z, leb x y = true -> leb y z = true -> leb x z = true.

Lemma insert_sorted_sorted x l :
  StronglySorted R l -> StronglySorted R (insert_sorted leb x l).
Proof.
  induction 1 as [|y l Hl IH Hy]; simpl.
  - repeat constructor.
  - destruct (leb x y) eqn:Hxy.
    + constructor; [by constructor|].
      constructor; [done|].
      eapply Forall_impl; [exact Hy|]. intros z Hz. by eapply leb_trans.
    + constructor; [done|].
      rewrite insert_sorted_perm. constructor; [|done].
      destruct (leb_total x y) as [H|H]; [congruence|done].
Qed.

Lemma sort_sorted l : StronglySorted R (sort leb l).
Proof.
  induction l as [|x l IH]; simpl; [constructor|].
  by apply insert_sorted_sorted.
Qed.
End SortFacts.

(** ** The order on strings *)
Section StrOrder.

Lemma N_of_ascii_inj a b : N_of_ascii a = N_of_ascii b -> a = b.
Proof.
  intros H. rewrite <-(ascii_N_embedding a), <-(ascii_N_embedding b).
  by rewrite H.
Qed.

Lemma str_leb_refl s : str_leb s s = true.
Proof. induction s as [|a s IH]; simpl; [done|]. by rewrite decide_True. Qed.

Lemma str_leb_total s t : str_leb s t = true \/ str_leb t s = true.
Proof.
  revert t. induction s as [|a s IH]; intros [|b t]; simpl; auto.
  destruct (decide (a = b)) as [->|Hab].
  - rewrite decide_True by done. apply IH.
  - rewrite decide_False by done. unfold char_ltb.
    destruct (N.ltb_spec (N_of_ascii a) (N_of_ascii b)); [by left|right].
    apply N.ltb_lt.
    assert (N_of_ascii a <> N_of_ascii b) by (intros ?; by apply Hab, N_of_ascii_inj).
    lia.
Qed.

Lemma str_leb_trans s t u :
  str_leb s t = true -> str_leb t u = true -> str_leb s u = true.
Proof.
  revert t u. induction s as [|a s IH]; intros [|b t] [|c u]; simpl; try done.
  unfold char_ltb. intros H1 H2.
  destruct (decide (a = b)) as [->|Hab], (decide (b = c)) as [->|Hbc].
  - eauto.
  - done.
  - by rewrite decide_False by done.
  - apply N.ltb_lt in H1, H2.
    destruct (decide (a = c)) as [->|Hac]; [lia|]. apply N.ltb_lt. lia.
Qed.

Lemma str_leb_antisym s t :
  str_leb s t = true -> str_leb t s = true -> s = t.
Proof.
  revert t. induction s as [|a s IH]; intros [|b t]; simpl; try done.
  destruct (decide (a = b)) as [->|Hab].
  - rewrite decide_True by done. intros. f_equal. by apply IH.
  - rewrite decide_False by done. unfold char_ltb.
    intros H1 H2. apply N.ltb_lt in H1, H2. lia.
Qed.

#[global] Instance str_le_trans : Transitive str_le.
Proof. intros s t u. apply str_leb_trans. Qed.
#[global] Instance str_le_antisym : AntiSymm (=) str_le.
Proof. intros s t. apply str_leb_antisym. Qed.

(** Truncation is monotone for the lexicographic order. *)
Lemma str_leb_take k s t :
  str_leb s t = true -> str_leb (take k s) (take k t) = true.
Proof.
  revert s t. induction k as [|k IH]; intros [|a s] [|b t]; simpl; try done.
  destruct (decide (a = b)); [apply IH|done].
Qed.

Lemma sort_str_sorted (l : list str) : StronglySorted str_le (sort str_leb l).
Proof. apply sort_sorted; [apply str_leb_total|apply str_leb_trans]. Qed.

(** Sorting is determined by the multiset of strings. *)
Lemma sort_str_unique (l k : list str) :
  l ≡ₚ k -> StronglySorted str_le k -> sort str_leb l = k.
Proof.
  intros Hp Hk. apply (StronglySorted_unique str_le); [|done|].
  - apply sort_str_sorted.
  - by rewrite sort_perm.
Qed.
End StrOrder.

(** ** burrows_wheeler.py *)
Section BWTFacts.
Import BWT.

Lemma length_all_rotations s : length (all_rotations s) = length s.
Proof. unfold all_rotations. by rewrite length_map, length_seq. Qed.

Lemma all_rotations_length s r : r ∈ all_rotations s -> length r = length s.
Proof.
  unfold all_rotations. intros (i & -> & Hi)%list_elem_of_fmap.
  apply elem_of_seq in Hi.
  rewrite length_app, length_drop, length_take. lia.
Qed.

Lemma elem_of_all_rotations s : s <> [] -> s ∈ all_rotations s.
Proof.
  intros Hs. unfold all_rotations. apply list_elem_of_fmap.
  exists 0. split.
  - simpl. by rewrite app_nil_r.
  - apply elem_of_seq. destruct s; simpl; [done|lia].
Qed.

Lemma rotr_snoc (l : str) c : rotr (l ++ [c]) = c :: l.
Proof. unfold rotr. by rewrite last_snoc, removelast_last. Qed.

Lemma rotr_rot_S s i :
  S i <= length s -> rotr (drop (S i) s ++ take (S i) s) = drop i s ++ take i s.
Proof.
  intros Hi. destruct (lookup_lt_is_Some_2 s i) as [x Hx]; [lia|].
  rewrite (take_S_r _ _ x), app_assoc, rotr_snoc by done.
  by rewrite (drop_S _ x i).
Qed.

Lemma rotr_rot_0 s :
  s <> [] -> rotr s = drop (length s - 1) s ++ take (length s - 1) s.
Proof.
  destruct s as [|c l _] using rev_ind; [done|]. intros _.
  rewrite rotr_snoc, length_app. simpl.
  replace (length l + 1 - 1) with (length l) by lia.
  by rewrite drop_app_length, take_app_length.
Qed.

(** The set of rotations is closed under rotation. *)
Lemma all_rotations_rotr s : rotr <$> all_rotations s ≡ₚ all_rotations s.
Proof.
  unfold all_rotations. destruct (length s) as [|m] eqn:Hn; [done|].
  rewrite seq_S at 2. rewrite fmap_app. simpl.
  rewrite drop_0, app_nil_r, rotr_rot_0 by (by destruct s).
  rewrite Hn. replace (S m - 1) with m by lia.
  rewrite <-Permutation_cons_append. f_equiv.
  rewrite <-fmap_S_seq. change (map ?f ?l) with (f <$> l).
  rewrite <-!list_fmap_compose.
  match goal with |- ?a ≡ₚ ?b => enough (a = b) as -> by done end.
  apply Forall_fmap_ext_1, Forall_forall. intros i Hi%elem_of_seq. simpl.
  apply rotr_rot_S. lia.
Qed.

Lemma take_S_rotr (r : str) c k :
  last r = Some c -> k < length r -> c :: take k r = take (S k) (rotr r).
Proof.
  destruct r as [|c' l _] using rev_ind; [done|].
  rewrite last_snoc, length_app. simpl. intros [= ->] Hk.
  rewrite rotr_snoc. simpl. f_equal. rewrite take_app_le; [done|lia].
Qed.

(** The inner loop prepends [bwt_string[i]] to row [i], for every [i]. *)
Lemma prepend_all_lookup bwt m : forall k rows,
  k + m <= length bwt -> k + m <= length rows ->
  exists rows', prepend_all bwt (seq k m) rows = Some rows' /\
    length rows' = length rows /\
    forall j, rows' !! j =
      if decide (k <= j < k + m)
      then c ← bwt !! j; r ← rows !! j; Some (c :: r)
      else rows !! j.
Proof.
  induction m as [|m IH]; intros k rows Hb Hr; simpl.
  - exists rows. split_and!; [done..|]. intros j. case_decide; [lia|done].
  - destruct (lookup_lt_is_Some_2 bwt k) as [c Hc]; [lia|].
    destruct (lookup_lt_is_Some_2 rows k) as [r Hrk]; [lia|].
    unfold prepend_at. rewrite Hc, Hrk. simpl.
    destruct (IH (S k) (<[k:=c :: r]> rows)) as (rows' & -> & Hlen & Hlk);
      [lia|rewrite length_insert; lia|].
    exists rows'. rewrite length_insert in Hlen. split_and!; [done..|].
    intros j. rewrite Hlk. destruct (decide (j = k)) as [->|Hjk].
    + rewrite decide_False, decide_True by lia.
      rewrite list_lookup_insert_eq by lia. by rewrite Hc, Hrk.
    + rewrite list_lookup_insert_ne by done.
      repeat case_decide; try done; lia.
Qed.

Lemma prepend_all_zip bwt rows :
  length rows = length bwt ->
  prepend_all bwt (seq 0 (length bwt)) rows = Some (zip_with cons bwt rows).
Proof.
  intros Hlen.
  destruct (prepend_all_lookup bwt (length bwt) 0 rows) as (rows' & -> & _ & Hlk);
    [lia..|].
  f_equal. apply list_eq. intros j. rewrite Hlk, lookup_zip_with.
  case_decide as Hj; [done|].
  rewrite !lookup_ge_None_2 by lia. done.
Qed.
Lemma index_Some s (l : list str) :
  s ∈ l -> exists i, index s l = Some i /\ l !! i = Some s.
Proof.
  induction l as [|r l IH]; [by intros ?%elem_of_nil|].
  intros Hin. simpl. destruct (decide (r = s)) as [->|Hne].
  - by exists 0.
  - apply elem_of_cons in Hin as [->|Hin]; [done|].
    destruct (IH Hin) as (i & -> & Hi). by exists (S i).
Qed.

(** The outer loop runs to the end on rows of the right number. *)
Lemma rebuild_is_Some bwt k : forall rows,
  length rows = length bwt ->
  exists rows', rebuild bwt k rows = Some rows' /\ length rows' = length bwt.
Proof.
  induction k as [|k IH]; intros rows Hlen; simpl; [by exists rows|].
  rewrite prepend_all_zip by done. simpl. apply IH.
  rewrite length_sort, length_zip_with. lia.
Qed.

Section Inverse.
Variable s : str.
Hypothesis s_nonempty : s <> [].

Local Abbreviation table := (sorted_rotations s).

Lemma table_perm : table ≡ₚ all_rotations s.
Proof. apply sort_perm. Qed.

Lemma table_length : length table = length s.
Proof.
  unfold sorted_rotations. by rewrite length_sort, length_all_rotations.
Qed.

Lemma table_row_length r : r ∈ table -> length r = length s.
Proof. rewrite table_perm. apply all_rotations_length. Qed.

Lemma table_sorted_take k : StronglySorted str_le (take k <$> table).
Proof.
  eapply StronglySorted_fmap; [|apply sort_str_sorted].
  intros x y. apply str_leb_take.
Qed.

Lemma table_lasts :
  exists bwt, mapM last table = Some bwt /\ length bwt = length s.
Proof.
  destruct (mapM_is_Some_2 last table) as [bwt Hbwt].
  - apply Forall_forall. intros r Hr. apply last_is_Some.
    apply table_row_length in Hr. intros ->. by destruct s.
  - exists bwt. split; [done|].
    apply mapM_Some_1, Forall2_length in Hbwt.
    by rewrite <-Hbwt, table_length.
Qed.

(** Prepending the last column to the rows cut at [j] gives the
    rotated rows cut at [j + 1]. *)
Lemma zip_last_column bwt j (rows : list str) :
  Forall2 (fun r c => last r = Some c) rows bwt ->
  Forall (fun r => j < length r) rows ->
  zip_with cons bwt (take j <$> rows) = take (S j) <$> (rotr <$> rows).
Proof.
  induction 1 as [|r c rows bwt Hrc _ IH]; intros Hlen; [done|].
  apply Forall_cons in Hlen as [Hr Hlen]. csimpl.
  f_equal; [|by apply IH]. by apply take_S_rotr.
Qed.

Lemma sort_prepend bwt j :
  mapM last table = Some bwt -> j < length s ->
  sort str_leb (zip_with cons bwt (take j <$> table)) = take (S j) <$> table.
Proof.
  intros Hbwt%mapM_Some_1 Hj.
  rewrite (zip_last_column bwt j table Hbwt).
  - apply sort_str_unique; [|apply table_sorted_take].
    f_equiv. by rewrite table_perm, all_rotations_rotr.
  - apply Forall_forall. intros r Hr%table_row_length. lia.
Qed.

Lemma rebuild_table bwt k : forall j,
  mapM last table = Some bwt -> j + k <= length s ->
  rebuild bwt k (take j <$> table) = Some (take (j + k) <$> table).
Proof.
  induction k as [|k IH]; intros j Hbwt Hjk; simpl.
  - by rewrite Nat.add_0_r.
  - assert (length bwt = length s) as Hlen.
    { apply mapM_Some_1, Forall2_length in Hbwt.
      by rewrite <-Hbwt, table_length. }
    rewrite prepend_all_zip
      by (by rewrite length_fmap, table_length, Hlen).
    simpl. rewrite sort_prepend by (done || lia).
    rewrite IH by (done || lia). do 3 f_equal. lia.
Qed.

Lemma rebuild_full bwt :
  mapM last table = Some bwt ->
  rebuild bwt (length s) (replicate (length s) []) = Some table.
Proof.
  intros Hbwt.
  assert (replicate (length s) [] = take 0 <$> table) as ->.
  { rewrite <-table_length. generalize table. clear.
    intros l. induction l; by f_equal/=. }
  rewrite rebuild_table by (done || lia). f_equal.
  rewrite <-(list_fmap_id table) at 2.
  apply Forall_fmap_ext_1, Forall_forall. intros r Hr%table_row_length.
  simpl. apply take_ge. lia.
Qed.
End Inverse.
End BWTFacts.

(** C2. For every non-empty string [s], [bwt_transform s] returns a pair
    [(bwt_string, idx_original_string)], and [reverse_bwt] applied to that
    pair returns [s]. *)
Theorem bwt_round_trip (s : str) :
  s <> [] ->
  exists r, BWT.bwt_transform s = Returns r /\
    BWT.reverse_bwt (BWT.bwt_string r) (BWT.idx_original_string r) = Returns s.
Proof.
  intros Hs.
  destruct (table_lasts s Hs) as (bwt & Hbwt & Hlen).
  destruct (index_Some s (sorted_rotations s)) as (i & Hi & Hrow).
  { rewrite table_perm. by apply elem_of_all_rotations. }
  assert (i < length s) as Hlt.
  { rewrite <-(table_length s). by eapply lookup_lt_Some. }
  exists {| BWT.bwt_string := bwt; BWT.idx_original_string := Z.of_nat i |}.
  unfold BWT.bwt_transform, BWT.reverse_bwt.
  cbn [BWT.bwt_string BWT.idx_original_string].
  rewrite decide_False by done.
  fold (sorted_rotations s). rewrite Hbwt, Hi.
  split; [done|].
  rewrite decide_False by (intros ->; by destruct s).
  destruct (Z.ltb_spec (Z.of_nat i) 0); [lia|].
  destruct (Z.geb_spec (Z.of_nat i) (Z.of_nat (length bwt))); [lia|].
  rewrite Hlen, (rebuild_full s) by done. simpl.
  by rewrite Nat2Z.id, Hrow.
Qed.

Lemma bwt_round_trip_witness :
  exists r, BWT.bwt_transform "a_asa_da_casa" = Returns r /\
    BWT.reverse_bwt (BWT.bwt_string r) (BWT.idx_original_string r) =
    Returns (list_ascii_of_string "a_asa_da_casa").
Proof. apply (bwt_round_trip "a_asa_da_casa"). discriminate. Defined.

(** C7. [reverse_bwt bwt_string idx] raises [ValueError] (the spec's
    [InvalidInput]) exactly when [idx] is negative, or [idx >= len(bwt_string)],
    or [bwt_string] is empty; on all other inputs it returns a string, and
    it never does both. *)
Theorem reverse_bwt_invalid_input (bwt_string : str) (idx : Z) :
  (BWT.reverse_bwt bwt_string idx = Raises ValueError <->
     (idx < 0 \/ Z.of_nat (length bwt_string) <= idx \/ bwt_string = [])%Z) /\
  ((exists r, BWT.reverse_bwt bwt_string idx = Returns r) <->
     ~ (idx < 0 \/ Z.of_nat (length bwt_string) <= idx \/ bwt_string = [])%Z).
Proof.
  unfold BWT.reverse_bwt.
  destruct (decide (bwt_string = [])) as [->|Hne].
  { split; split; try tauto. intros [? [=]]. }
  destruct (Z.ltb_spec idx 0).
  { split; split; try tauto. intros [? [=]]. }
  destruct (Z.geb_spec idx (Z.of_nat (length bwt_string))).
  { split; split; try tauto. intros [? [=]]. }
  destruct (rebuild_is_Some bwt_string (length bwt_string)
              (replicate (length bwt_string) [])) as (rows & -> & Hlen).
  { by rewrite length_replicate. }
  simpl.
  destruct (lookup_lt_is_Some_2 rows (Z.to_nat idx)) as [r ->]; [lia|].
  simpl. split; split.
  - intros [=].
  - intros [?|[?|?]]; [lia|lia|done].
  - intros _ [?|[?|?]]; [lia|lia|done].
  - intros _. by exists r.
Qed.

(** ** huffman.py *)
Section DictFacts.
Import Huffman.
Context {K V : Type} `{EqDecision K}.
Implicit Types (d : list (K * V)) (k : K) (v : V).

Lemma dict_set_fresh d k v : k ∉ d.*1 -> dict_set d k v = d ++ [(k, v)].
Proof.
  induction d as [|[k' v'] d IH]; simpl; [done|].
  intros Hk. apply not_elem_of_cons in Hk as [Hne Hk].
  rewrite decide_False by done. by rewrite IH.
Qed.

Lemma dict_set_keys d k v :
  (dict_set d k v).*1 = if decide (k ∈ d.*1) then d.*1 else d.*1 ++ [k].
Proof.
  induction d as [|[k' v'] d IH]; csimpl.
  - destruct (decide (k ∈ [])) as [H%elem_of_nil|]; done.
  - destruct (decide (k' = k)) as [->|Hne]; csimpl.
    + destruct (decide (k ∈ k :: d.*1)) as [|[]]; [done|by left].
    + rewrite IH. destruct (decide (k ∈ d.*1)) as [Hin|Hin].
      * destruct (decide (k ∈ k' :: d.*1)) as [|[]]; [done|by right].
      * destruct (decide (k ∈ k' :: d.*1)) as [[?|?]%elem_of_cons|];
          [congruence|done|done].
Qed.

Lemma dict_set_keys_NoDup d k v : NoDup d.*1 -> NoDup (dict_set d k v).*1.
Proof.
  intros Hd. rewrite dict_set_keys. case_decide; [done|].
  apply NoDup_app. split_and!; [done| |apply NoDup_singleton].
  intros x Hx ->%list_elem_of_singleton. done.
Qed.

Lemma elem_of_dict_set_keys d k v k' :
  k' ∈ (dict_set d k v).*1 <-> k' = k \/ k' ∈ d.*1.
Proof.
  rewrite dict_set_keys. case_decide.
  - split; [by right|]. by intros [->|?].
  - rewrite elem_of_app, list_elem_of_singleton. tauto.
Qed.

Lemma dict_of_items_NoDup (items : list (K * V)) :
  NoDup items.*1 -> dict_of_items items = items.
Proof.
  unfold dict_of_items.
  enough (forall d, NoDup (d ++ items).*1 ->
            foldl (fun d kv => dict_set d kv.1 kv.2) d items = d ++ items)
    as H by (intros; by apply (H [])).
  induction items as [|[k v] items IH]; intros d Hd; simpl.
  - by rewrite app_nil_r.
  - rewrite dict_set_fresh.
    + rewrite IH; rewrite <-app_assoc; done.
    + rewrite fmap_app in Hd. apply NoDup_app in Hd as (_ & Hd & _).
      intros Hk. apply (Hd k Hk). by left.
Qed.

Lemma dict_get_Some_elem d k v : dict_get d k = Some v -> (k, v) ∈ d.
Proof.
  induction d as [|[k' v'] d IH]; simpl; [done|].
  case_decide; [intros [= ->]; subst; by left|].
  intros. right. auto.
Qed.

Lemma dict_get_is_Some d k : k ∈ d.*1 -> is_Some (dict_get d k).
Proof.
  induction d as [|[k' v'] d IH]; simpl; [by intros ?%elem_of_nil|].
  case_decide; [by eexists|].
  intros [?|?]%elem_of_cons; [congruence|auto].
Qed.
End DictFacts.

Section HuffmanFacts.
Import Huffman.

(** *** Counting the symbols *)

Let count_step (chars : list (str * nat)) (c : str) : list (str * nat) :=
  dict_set chars c
    (match dict_get chars c with Some n => n + 1 | None => 1 end).

Lemma count_fold_NoDup raw : forall chars,
  NoDup chars.*1 -> NoDup (foldl count_step chars raw).*1.
Proof.
  induction raw as [|c raw IH]; intros chars Hd; simpl; [done|].
  apply IH. by apply dict_set_keys_NoDup.
Qed.

Lemma count_fold_keys raw : forall chars c,
  c ∈ raw \/ c ∈ chars.*1 -> c ∈ (foldl count_step chars raw).*1.
Proof.
  induction raw as [|c' raw IH]; intros chars c Hc; simpl.
  - destruct Hc as [Hc%elem_of_nil|Hc]; done.
  - apply IH. unfold count_step. rewrite elem_of_dict_set_keys.
    destruct Hc as [[->|Hc]%elem_of_cons|Hc]; auto.
Qed.

Lemma count_chars_NoDup raw : NoDup (count_chars raw).*1.
Proof. apply count_fold_NoDup. constructor. Qed.

Lemma count_chars_keys raw c : c ∈ raw -> c ∈ (count_chars raw).*1.
Proof. intros. apply count_fold_keys. by left. Qed.

Lemma count_chars_nonempty raw : raw <> [] -> count_chars raw <> [].
Proof.
  destruct raw as [|c raw]; [done|]. intros _ Hnil.
  pose proof (count_chars_keys (c :: raw) c) as Hc.
  rewrite Hnil in Hc. apply (elem_of_nil c), Hc. by left.
Qed.

(** *** The list of letters *)

Lemma parse_file_perm raw :
  parse_file raw ≡ₚ (fun cf => new_Letter cf.1 cf.2) <$> count_chars raw.
Proof. apply sort_perm. Qed.

Lemma parse_file_letters raw : letter <$> parse_file raw ≡ₚ (count_chars raw).*1.
Proof.
  rewrite parse_file_perm, <-list_fmap_compose.
  match goal with |- ?a ≡ₚ ?b => enough (a = b) as -> by done end.
  by apply Forall_fmap_ext_1, Forall_forall.
Qed.

Lemma parse_file_bitstring raw :
  Forall (fun l => bitstring l = []) (parse_file raw).
Proof.
  rewrite parse_file_perm. apply Forall_forall.
  by intros l (cf & -> & _)%list_elem_of_fmap.
Qed.

(** *** The tree *)

Lemma build_tree_loop_leaves n : forall ts,
  length ts = n -> build_tree_loop ts ≫= leaves ≡ₚ ts ≫= leaves.
Proof.
  induction n as [n IH] using lt_wf_ind. intros ts Hn.
  destruct ts as [|a [|b rest]]; simp build_tree_loop; [done..|].
  rewrite (IH (S (length rest))).
  - rewrite sort_perm, bind_app. simpl. rewrite app_nil_r.
    rewrite (comm (++)). by rewrite <-(assoc (++)).
  - simpl in Hn. lia.
  - rewrite length_sort, length_app. simpl. lia.
Qed.

Lemma build_tree_loop_single n : forall ts,
  length ts = n -> ts <> [] -> exists t, build_tree_loop ts = [t].
Proof.
  induction n as [n IH] using lt_wf_ind. intros ts Hn Hne.
  destruct ts as [|a [|b rest]]; simp build_tree_loop; [done|by exists a|].
  apply (IH (S (length rest))).
  - simpl in Hn. lia.
  - rewrite length_sort, length_app. simpl. lia.
  - intros Hnil%(f_equal length).
    rewrite length_sort, length_app in Hnil. simpl in Hnil. lia.
Qed.

Lemma build_tree_spec letters :
  letters <> [] ->
  exists t, build_tree letters = Returns t /\ leaves t ≡ₚ letters.
Proof.
  intros Hne. unfold build_tree.
  destruct (build_tree_loop_single _ (Leaf <$> letters) eq_refl) as [t Ht].
  { by destruct letters. }
  pose proof (build_tree_loop_leaves _ (Leaf <$> letters) eq_refl) as Hl.
  change (map Leaf letters) with (Leaf <$> letters).
  rewrite Ht in Hl |- *. exists t. split; [done|].
  simpl in Hl. rewrite app_nil_r in Hl. rewrite Hl.
  clear. induction letters as [|l letters IH]; [done|].
  csimpl. by f_equiv.
Qed.

(** *** The code table *)

Lemma traverse_tree_paths t : forall acc,
  Forall (fun l => bitstring l = []) (leaves t) ->
  flat_map bitstring (traverse_tree t acc) = paths t acc.
Proof.
  induction t as [l|f t1 IH1 t2 IH2]; intros acc Hb; simpl in *.
  - rewrite Forall_singleton in Hb. by rewrite Hb.
  - apply Forall_app in Hb as [Hb1 Hb2].
    by rewrite flat_map_app, IH1, IH2.
Qed.

Lemma paths_keys t acc : (paths t acc).*1 = letter <$> leaves t.
Proof.
  revert acc. induction t as [l|f t1 IH1 t2 IH2]; intros acc; simpl; [done|].
  by rewrite !fmap_app, IH1, IH2.
Qed.

Lemma paths_prefix t : forall acc,
  Forall (fun code => acc `prefix_of` code) (paths t acc).*2.
Proof.
  induction t as [l|f t1 IH1 t2 IH2]; intros acc; simpl.
  - by repeat constructor.
  - rewrite fmap_app. apply Forall_app. split.
    + eapply Forall_impl; [apply IH1|]. intros code. apply prefix_app_l.
    + eapply Forall_impl; [apply IH2|]. intros code. apply prefix_app_l.
Qed.

Lemma branches_incomparable (acc x y : str) :
  acc ++ "0" `prefix_of` x -> acc ++ "1" `prefix_of` y -> incomparable x y.
Proof.
  intros [x' ->] [y' ->]. rewrite <-!app_assoc.
  split; intros H%prefix_app_inv; by apply prefix_cons_inv_1 in H.
Qed.

(** Codes of different leaves are incomparable. *)
Lemma paths_prefix_free t : forall acc,
  StronglySorted incomparable (paths t acc).*2.
Proof.
  induction t as [l|f t1 IH1 t2 IH2]; intros acc; simpl.
  - repeat constructor.
  - rewrite fmap_app. apply StronglySorted_app_2; [|done..].
    intros x y Hx Hy. apply (branches_incomparable acc).
    + pose proof (paths_prefix t1 (acc ++ "0")) as H.
      rewrite Forall_forall in H. auto.
    + pose proof (paths_prefix t2 (acc ++ "1")) as H.
      rewrite Forall_forall in H. auto.
Qed.
Lemma incomparable_sym x y : incomparable x y -> incomparable y x.
Proof. unfold incomparable. tauto. Qed.

(** In a table whose codes are pairwise incomparable, the codes of two
    different symbols are incomparable. *)
Lemma table_incomparable (table : list (str * str)) s1 c1 s2 c2 :
  StronglySorted incomparable table.*2 ->
  (s1, c1) ∈ table -> (s2, c2) ∈ table -> s1 <> s2 -> incomparable c1 c2.
Proof.
  induction table as [|[k v] table IH]; [by intros _ ?%elem_of_nil|].
  csimpl. intros [Hv Htable]%StronglySorted_cons H1 H2 Hne.
  rewrite Forall_forall in Hv.
  apply elem_of_cons in H1 as [[= -> ->]|H1];
    apply elem_of_cons in H2 as [[= -> ->]|H2]; [done| | |by apply IH].
  - apply Hv. by apply (list_elem_of_fmap_2 snd _ (s2, c2)).
  - apply incomparable_sym, Hv.
    by apply (list_elem_of_fmap_2 snd _ (s1, c1)).
Qed.

(** Reverse lookup finds the symbol back when no code is shared. *)
Lemma return_key_dict_get (table : list (str * str)) c code :
  (forall k k' v, (k, v) ∈ table -> (k', v) ∈ table -> k = k') ->
  dict_get table c = Some code -> return_key table code = c.
Proof.
  induction table as [|[k v] table IH]; [done|].
  intros Hinj. simpl. destruct (decide (v = code)) as [->|Hv].
  - intros Hget%(dict_get_Some_elem ((k, code) :: table)).
    apply (Hinj k c code); [by left|done].
  - destruct (decide (k = c)) as [->|Hk]; [by intros [= ->]|].
    apply IH. intros k1 k2 v' ? ?. apply (Hinj k1 k2 v'); by right.
Qed.

(** What [huffman_encode] returns on a non-empty list: the table is the
    list of root-to-leaf paths of a tree with one leaf per symbol. *)
Lemma huffman_encode_spec raw :
  raw <> [] ->
  exists t enc,
    huffman_encode raw =
      Returns {| Huf_encode := enc; Huf_letters := paths t [] |} /\
    NoDup (paths t []).*1 /\
    Forall2 (fun c code => dict_get (paths t []) c = Some code) raw enc.
Proof.
  intros Hne. unfold huffman_encode.
  destruct (build_tree_spec (parse_file raw)) as (t & -> & Hleaves).
  { intros Hnil%(f_equal length). unfold parse_file in Hnil.
    rewrite length_sort, length_map in Hnil.
    by apply (count_chars_nonempty raw Hne), nil_length_inv. }
  assert (NoDup (paths t []).*1) as Hnodup.
  { rewrite paths_keys, Hleaves, parse_file_letters.
    apply count_chars_NoDup. }
  cbn [mbind outcome_bind].
  rewrite traverse_tree_paths
    by (rewrite Hleaves; apply parse_file_bitstring).
  rewrite dict_of_items_NoDup by done.
  destruct (mapM_is_Some_2 (dict_get (paths t [])) raw) as [enc Henc].
  { apply Forall_forall. intros c Hc. apply dict_get_is_Some.
    rewrite paths_keys, Hleaves, parse_file_letters.
    by apply count_chars_keys. }
  exists t, enc. rewrite Henc. split_and!; [done..|].
  by apply mapM_Some_1.
Qed.

(** *** A single distinct symbol *)

Lemma count_fold_replicate a n : forall m,
  foldl count_step [(a, m)] (replicate n a) = [(a, m + n)].
Proof.
  induction n as [|n IH]; intros m; simpl.
  - by rewrite Nat.add_0_r.
  - unfold count_step at 2. simpl. rewrite !decide_True by done.
    rewrite IH. do 2 f_equal. lia.
Qed.

Lemma huffman_encode_replicate a n :
  huffman_encode (replicate (S n) a) =
  Returns {| Huf_encode := replicate (S n) []; Huf_letters := [(a, [])] |}.
Proof.
  unfold huffman_encode.
  assert (parse_file (replicate (S n) a) = [new_Letter a (S n)]) as ->.
  { unfold parse_file, count_chars.
    change (foldl _ [] (replicate (S n) a))
      with (foldl count_step [(a, 1)] (replicate n a)).
    by rewrite count_fold_replicate. }
  assert (build_tree [new_Letter a (S n)]
          = Returns (Leaf (new_Letter a (S n)))) as ->.
  { unfold build_tree. simpl. by simp build_tree_loop. }
  cbn [mbind outcome_bind].
  change (dict_of_items _) with [(a, [] : str)].
  assert (mapM (dict_get [(a, [] : str)]) (replicate (S n) a)
          = Some (replicate (S n) [])) as ->; [|done].
  generalize (S n). clear. intros n.
  induction n as [|n IH]; [done|].
  cbn [replicate mapM]. rewrite IH. simpl. by rewrite decide_True.
Qed.
End HuffmanFacts.

(** C3. For every non-empty list of symbols, [huffman_encode] returns a
    result (the list of codes and the code table built from the list's
    own frequencies), and [huffman_decode] of that result is the list. *)
Theorem huffman_round_trip (raw : list str) :
  raw <> [] ->
  exists hf, Huffman.huffman_encode raw = Returns hf /\
    Huffman.huffman_decode hf = raw.
Proof.
  intros Hne.
  destruct (huffman_encode_spec raw Hne) as (t & enc & -> & Hnodup & Henc).
  eexists. split; [done|].
  unfold Huffman.huffman_decode. simpl. clear Hne.
  induction Henc as [|c code raw' enc' Hc _ IH]; [done|].
  csimpl. f_equal; [|done].
  apply return_key_dict_get; [|done].
  intros k k' v Hk Hk'. destruct (decide (k = k')) as [|Hkk]; [done|].
  destruct (table_incomparable (paths t []) k v k' v) as [[] _]; try done.
  apply paths_prefix_free.
Qed.

Lemma huffman_round_trip_witness :
  exists hf,
    Huffman.huffman_encode ["a" : str; "b" : str; "a" : str; "c" : str]
      = Returns hf /\
    Huffman.huffman_decode hf = ["a" : str; "b" : str; "a" : str; "c" : str].
Proof. apply (huffman_round_trip ["a" : str; "b" : str; "a" : str; "c" : str]). discriminate. Defined.

(** C4. For every non-empty list of symbols, [huffman_encode] returns a
    code table [Huf_letters] in which, for every two entries with different
    symbols, neither code is a prefix of the other. *)
Theorem huffman_prefix_free (raw : list str) :
  raw <> [] ->
  exists hf, Huffman.huffman_encode raw = Returns hf /\
    forall s1 c1 s2 c2,
      (s1, c1) ∈ Huffman.Huf_letters hf ->
      (s2, c2) ∈ Huffman.Huf_letters hf ->
      s1 <> s2 ->
      ~ c1 `prefix_of` c2 /\ ~ c2 `prefix_of` c1.
Proof.
  intros Hne.
  destruct (huffman_encode_spec raw Hne) as (t & enc & -> & _ & _).
  eexists. split; [done|]. simpl. intros s1 c1 s2 c2 H1 H2 Hs.
  apply (table_incomparable (paths t []) s1 c1 s2 c2); try done.
  apply paths_prefix_free.
Qed.

Lemma huffman_prefix_free_witness :
  exists hf,
    Huffman.huffman_encode ["a" : str; "b" : str; "a" : str; "c" : str]
      = Returns hf /\
    forall s1 c1 s2 c2,
      (s1, c1) ∈ Huffman.Huf_letters hf ->
      (s2, c2) ∈ Huffman.Huf_letters hf ->
      s1 <> s2 ->
      ~ c1 `prefix_of` c2 /\ ~ c2 `prefix_of` c1.
Proof. apply (huffman_prefix_free ["a" : str; "b" : str; "a" : str; "c" : str]). discriminate. Defined.




(** C6, as the code has it. A non-empty list whose symbols are all equal
    to [a] gives the one-entry table that maps [a] to the empty code, every
    symbol is encoded by the empty code, and decoding gives the list
    back. *)
Theorem huffman_single_symbol (a : str) (raw : list str) :
  raw <> [] -> Forall (fun c => c = a) raw ->
  Huffman.huffman_encode raw =
    Returns {| Huffman.Huf_encode := replicate (length raw) [];
               Huffman.Huf_letters := [(a, [])] |} /\
  Huffman.huffman_decode
    {| Huffman.Huf_encode := replicate (length raw) [];
       Huffman.Huf_letters := [(a, [])] |} = raw.
Proof.
  intros Hne Hall.
  assert (raw = replicate (length raw) a) as Hraw.
  { clear Hne. induction Hall as [|c raw' -> _ IH]; [done|].
    simpl. by rewrite <-IH. }
  destruct (length raw) as [|n] eqn:Hlen; [by destruct raw|].
  rewrite Hraw. split; [apply huffman_encode_replicate|].
  unfold Huffman.huffman_decode.
  cbn [Huffman.Huf_encode Huffman.Huf_letters].
  generalize (S n). clear. intros n.
  induction n as [|n IH]; [done|].
  cbn [replicate map]. by rewrite IH.
Qed.

Lemma huffman_single_symbol_witness :
  Huffman.huffman_encode ["a" : str; "a" : str; "a" : str] =
    Returns {| Huffman.Huf_encode := replicate 3 [];
               Huffman.Huf_letters := [("a" : str, [])] |} /\
  Huffman.huffman_decode
    {| Huffman.Huf_encode := replicate 3 [];
       Huffman.Huf_letters := [("a" : str, [])] |}
  = ["a" : str; "a" : str; "a" : str].
Proof.
  apply (huffman_single_symbol "a" ["a" : str; "a" : str; "a" : str]).
  - discriminate.
  - repeat constructor.
Defined.

(** C6, as stated, fails: the sole symbol gets the empty code, not ["0"]. *)
Lemma huffman_single_symbol_code_not_0 :
  exists hf,
    Huffman.huffman_encode ["a" : str; "a" : str; "a" : str] = Returns hf /\
    Huffman.Huf_letters hf = [("a" : str, [])] /\
    Huffman.Huf_letters hf <> [("a" : str, "0" : str)].
Proof. eexists. split; [reflexivity|]. split; [reflexivity|discriminate]. Qed.


(** ** lempel_ziv.py: the file framing *)
Section FramingFacts.
Import LZ.

Lemma bits_app (s t : str) : bits (s ++ t) <-> bits s /\ bits t.
Proof. apply Forall_app. Qed.

Lemma is_bit_0 : is_bit "0"%char.
Proof. by left. Qed.

Lemma is_bit_1 : is_bit "1"%char.
Proof. by right. Qed.

Lemma bits_replicate_0 n : bits (replicate n "0"%char).
Proof. apply Forall_replicate, is_bit_0. Qed.

Lemma bin_pos_head p : exists rest, bin_pos p = "1"%char :: rest.
Proof.
  induction p as [p [rest IH]|p [rest IH]|]; simpl.
  - rewrite IH. by eexists.
  - rewrite IH. by eexists.
  - by eexists.
Qed.

Lemma bin_pos_bits p : bits (bin_pos p).
Proof.
  induction p as [p IH|p IH|]; simpl.
  - apply bits_app. split; [done|]. apply Forall_singleton, is_bit_1.
  - apply bits_app. split; [done|]. apply Forall_singleton, is_bit_0.
  - apply Forall_singleton, is_bit_1.
Qed.

Lemma count_prefix_zeros n (s : str) :
  count_prefix (replicate n "0"%char ++ "1"%char :: s) = n.
Proof. induction n as [|n IH]; simpl; [done|]. by rewrite IH. Qed.

(** Dropping the prefix of a framed stream leaves what follows it. *)
Lemma remove_prefix_add_file_length p (rest : str) :
  remove_prefix (add_file_length (Npos p) rest) = rest.
Proof.
  unfold remove_prefix, add_file_length. simpl.
  destruct (bin_pos_head p) as [tl Hp]. rewrite Hp.
  cbn [length app]. rewrite Nat.sub_succ, Nat.sub_0_r.
  rewrite count_prefix_zeros.
  rewrite drop_app_length' by (by rewrite length_replicate).
  rewrite Nat.add_1_r. simpl. by rewrite drop_app_length.
Qed.

(** *** Cutting into bytes *)

Lemma byte_chunks_short (w : str) :
  0 < length w <= 8 -> byte_chunks 8 w = [w].
Proof.
  intros Hw. unfold byte_chunks, range_step.
  replace ((length w + 8 - 1) `div` 8) with 1.
  - cbn [seq map]. change (0 * 8) with 0.
    rewrite drop_0, take_ge; [done|lia].
  - apply Nat.div_unique with (length w - 1); lia.
Qed.

Lemma byte_chunks_long (w : str) :
  8 < length w -> byte_chunks 8 w = take 8 w :: byte_chunks 8 (drop 8 w).
Proof.
  intros Hw. unfold byte_chunks, range_step.
  rewrite length_drop.
  replace ((length w + 8 - 1) `div` 8)
    with (S ((length w - 8 + 8 - 1) `div` 8)).
  - cbn [seq map]. change (0 * 8) with 0. rewrite drop_0. f_equal.
    rewrite <-fmap_S_seq. change (map ?f ?l) with (f <$> l).
    rewrite <-!list_fmap_compose.
    apply Forall_fmap_ext_1, Forall_forall. intros j _. simpl.
    rewrite drop_drop. do 2 f_equal; lia.
  - replace (length w + 8 - 1) with (1 * 8 + (length w - 8 + 8 - 1)) by lia.
    by rewrite Nat.div_add_l.
Qed.

Lemma byte_chunks_nonempty (w : str) : w <> [] -> byte_chunks 8 w <> [].
Proof.
  intros Hw. destruct (decide (length w <= 8)).
  - rewrite byte_chunks_short; [done|]. destruct w; simpl in *; [done|lia].
  - by rewrite byte_chunks_long by lia.
Qed.

Lemma pad_byte_array_cons (a : str) (arr : list str) :
  arr <> [] ->
  pad_byte_array 8 (a :: arr) =
  arr' ← pad_byte_array 8 arr; Returns (a :: arr').
Proof.
  intros Hne. unfold pad_byte_array.
  rewrite (last_cons a arr).
  destruct (last arr) as [last_elem|] eqn:Hlast.
  - cbn [of_option mbind outcome_bind]. f_equal.
    destruct (length last_elem `mod` 8 =? 0); [done|].
    destruct arr as [|b arr]; [done|].
    cbn [length]. by rewrite !Nat.sub_succ, !Nat.sub_0_r.
  - by apply last_None in Hlast.
Qed.

(** The padded chunks are full bytes and spell the input followed by the
    end marker. *)
Lemma pad_byte_chunks n : forall w : str,
  length w = n -> w <> [] ->
  exists arr,
    pad_byte_array 8 (byte_chunks 8 w) = Returns arr /\
    concat arr = w ++ "1"%char :: replicate (7 - length w mod 8) "0"%char /\
    Forall (fun e => length e = 8) arr.
Proof.
  induction n as [n IH] using lt_wf_ind. intros w Hn Hne.
  destruct (decide (length w <= 8)) as [Hle|Hgt].
  - rewrite byte_chunks_short by (destruct w; simpl in *; [done|lia]).
    unfold pad_byte_array. cbn [last of_option mbind outcome_bind].
    destruct (Nat.eqb_spec (length w `mod` 8) 0) as [Hmod|Hmod].
    + assert (length w = 8) as Hlen.
      { destruct (decide (length w = 8)); [done|].
        rewrite Nat.mod_small in Hmod by lia.
        destruct w; simpl in *; [done|lia]. }
      eexists. split; [done|]. rewrite Hlen. split; [reflexivity|].
      by repeat constructor.
    + assert (length w < 8) as Hlen.
      { destruct (decide (length w = 8)) as [H8|]; [|lia].
        by rewrite H8 in Hmod. }
      eexists. split; [done|]. rewrite Nat.mod_small by lia.
      cbn [length Nat.sub insert list_insert concat].
      replace (8 - length w - 1) with (7 - length w) by lia.
      split; [by rewrite app_nil_r|].
      repeat constructor.
      rewrite length_app. cbn [length app list_ascii_of_string].
      rewrite length_replicate. lia.
  - destruct (IH (length (drop 8 w))) with (w := drop 8 w)
      as (arr & Harr & Hcat & Hlen); [rewrite length_drop; lia|done| |].
    { intros Hnil%(f_equal length). rewrite length_drop in Hnil.
      simpl in Hnil. lia. }
    rewrite byte_chunks_long by lia.
    exists (take 8 w :: arr). split_and!.
    + rewrite pad_byte_array_cons, Harr; [done|].
      apply byte_chunks_nonempty.
      intros Hnil%(f_equal length). rewrite length_drop in Hnil.
      simpl in Hnil. lia.
    + assert ((length w - 8) `mod` 8 = length w `mod` 8) as Hm.
      { rewrite <-(Nat.Div0.mod_add (length w - 8) 1 8). f_equal. lia. }
      cbn [concat]. rewrite Hcat, app_assoc, take_drop.
      by rewrite length_drop, Hm.
    + constructor; [|done]. rewrite length_take. lia.
Qed.

(** *** Bytes *)

Lemma to_byte_format (e : str) :
  length e = 8 -> bits e ->
  exists b, to_byte e = Returns b /\ format_08b b = e.
Proof.
  intros Hlen Hbits.
  do 9 (destruct e as [|? e]; try done).
  unfold bits, is_bit in Hbits.
  repeat match goal with
         | H : Forall _ (_ :: _) |- _ => apply Forall_cons in H as [[-> | ->] H]
         end; eexists; split; reflexivity.
Qed.

Lemma bits_concat (arr : list str) : bits (concat arr) -> Forall bits arr.
Proof.
  induction arr as [|e arr IH]; simpl; [done|].
  intros [He Harr]%bits_app. constructor; auto.
Qed.

Lemma write_read_bytes (arr : list str) :
  Forall (fun e => length e = 8) arr -> Forall bits arr ->
  exists data, mapM to_byte arr = Returns data /\
    read_file_binary data = concat arr.
Proof.
  induction 1 as [|e arr He _ IH]; intros Hbits.
  - by exists [].
  - apply Forall_cons in Hbits as [Hbe Hbarr].
    destruct (IH Hbarr) as (data & Hdata & Hread).
    destruct (to_byte_format e He Hbe) as (b & Hb & Hfmt).
    exists (b :: data). cbn [mapM]. rewrite Hb, Hdata.
    split; [done|]. simpl. by rewrite Hfmt, Hread.
Qed.

(** Writing a non-empty bit string and reading the file back gives the
    bit string followed by the end marker. *)
Lemma write_read_file_binary (w : str) :
  w <> [] -> bits w ->
  exists data, write_file_binary w = Returns data /\
    read_file_binary data =
      w ++ "1"%char :: replicate (7 - length w mod 8) "0"%char.
Proof.
  intros Hne Hbits. unfold write_file_binary.
  destruct (pad_byte_chunks _ w eq_refl Hne) as (arr & -> & Hcat & Hlen).
  destruct (write_read_bytes arr Hlen) as (data & Hdata & Hread).
  { apply bits_concat. rewrite Hcat. apply bits_app. split; [done|].
    constructor; [apply is_bit_1|apply bits_replicate_0]. }
  exists data. split; [done|]. by rewrite Hread.
Qed.
End FramingFacts.

(** C8, as the code has it. For every bit sequence [p] and every file
    length of at least one, the framed stream can be written, and
    unframing what was written (unpacking the bytes and stripping the
    length prefix) gives [p] followed by the end marker: a ["1"] and fewer
    than eight ["0"]s, up to the byte boundary.  The trailing marker is
    not stripped. *)
Theorem framing_round_trip (p : str) (file_length : N) :
  LZ.bits p -> (0 < file_length)%N ->
  exists data k,
    LZ.write_file_binary (LZ.add_file_length file_length p) = Returns data /\
    LZ.remove_prefix (LZ.read_file_binary data)
      = p ++ "1"%char :: replicate k "0"%char /\
    k < 8 /\
    (length (LZ.add_file_length file_length p) + 1 + k) mod 8 = 0.
Proof.
  intros Hp Hlen. destruct file_length as [|n]; [lia|].
  set (w := LZ.add_file_length (N.pos n) p).
  assert (w <> []) as Hne.
  { unfold w, LZ.add_file_length. simpl.
    destruct (bin_pos_head n) as [tl ->].
    intros H%(f_equal length). rewrite !length_app in H. simpl in H. lia. }
  assert (LZ.bits w) as Hw.
  { unfold w, LZ.add_file_length. simpl.
    apply bits_app. split; [apply bits_replicate_0|].
    apply bits_app. split; [apply bin_pos_bits|done]. }
  destruct (write_read_file_binary w Hne Hw) as (data & Hdata & Hread).
  exists data, (7 - length w mod 8). split_and!; [done| |lia|].
  - rewrite Hread. unfold w, LZ.add_file_length.
    rewrite <-!app_assoc.
    apply (remove_prefix_add_file_length n
             (p ++ "1"%char :: replicate (7 - length w mod 8) "0"%char)).
  - pose proof (Nat.mod_upper_bound (length w) 8) as Hm.
    rewrite (Nat.div_mod_eq (length w) 8) at 1.
    replace (8 * (length w `div` 8) + length w `mod` 8 + 1
             + (7 - length w `mod` 8))
      with ((length w `div` 8 + 1) * 8) by lia.
    apply Nat.Div0.mod_mul.
Qed.

Lemma framing_round_trip_witness :
  exists data k,
    LZ.write_file_binary (LZ.add_file_length 5 "1010101010101")
      = Returns data /\
    LZ.remove_prefix (LZ.read_file_binary data)
      = list_ascii_of_string "1010101010101"
        ++ "1"%char :: replicate k "0"%char /\
    k < 8 /\
    (length (LZ.add_file_length 5 "1010101010101") + 1 + k) mod 8 = 0.
Proof.
  apply (framing_round_trip "1010101010101" 5).
  - repeat (apply Forall_cons; split;
            [first [apply is_bit_0|apply is_bit_1]|]).
    by apply Forall_nil.
  - reflexivity.
Defined.

(** C8, as stated, fails: framing the one-bit payload ["1"] with its
    length 1 and unframing gives ["1100000"], the payload and the end
    marker, not the payload. *)
Lemma framing_round_trip_keeps_marker :
  exists data,
    LZ.write_file_binary
      (LZ.add_file_length (N.of_nat (length (list_ascii_of_string "1"))) "1")
      = Returns data /\
    LZ.remove_prefix (LZ.read_file_binary data)
      = list_ascii_of_string "1100000" /\
    LZ.remove_prefix (LZ.read_file_binary data) <> list_ascii_of_string "1".
Proof. eexists. split; [reflexivity|]. split; [reflexivity|discriminate]. Qed.

(** The loop of [remove_prefix] stops at the first ["1"]: no character
    before position [count_prefix data_bits] is a ["1"], and that position
    holds a ["1"] unless the loop ran off the end of the input. *)
Lemma count_prefix_first_one (data_bits : str) :
  Forall (fun letter => letter <> "1"%char)
    (take (LZ.count_prefix data_bits) data_bits) /\
  (data_bits !! LZ.count_prefix data_bits = Some "1"%char \/
   LZ.count_prefix data_bits = length data_bits /\ "1"%char ∉ data_bits).
Proof.
  induction data_bits as [|letter rest [IHtake IHone]]; simpl.
  - split; [constructor|]. right. split; [done|]. apply not_elem_of_nil.
  - destruct (decide (letter = "1"%char)) as [->|Hletter]; simpl.
    + split; [constructor|]. by left.
    + split; [by constructor|].
      destruct IHone as [Hone|[Hlen Hno]]; [by left|right].
      split; [by rewrite Hlen|].
      intros [?|?]%elem_of_cons; [congruence|done].
Qed.

(** C9, as the code has it. [remove_prefix] never fails. Let [c] be the
    number of characters before the first ["1"] of the input (all of them
    when it has none): no character before position [c] is a ["1"], and
    position [c] holds a ["1"] or is the end of the input. The result is
    the input without its first [2 * c + 1] characters. It is empty when
    the input has no ["1"], and exactly when the input has no more than
    the [2 * c + 1] bits of the prefix it announces. *)
Theorem remove_prefix_total (data_bits : str) :
  exists c : nat,
    Forall (fun letter => letter <> "1"%char) (take c data_bits) /\
    (data_bits !! c = Some "1"%char \/ c = length data_bits) /\
    LZ.remove_prefix data_bits = drop (2 * c + 1) data_bits /\
    ("1"%char ∉ data_bits -> LZ.remove_prefix data_bits = []) /\
    (LZ.remove_prefix data_bits = [] <-> length data_bits <= 2 * c + 1).
Proof.
  exists (LZ.count_prefix data_bits).
  destruct (count_prefix_first_one data_bits) as [Htake Hone].
  assert (LZ.remove_prefix data_bits
          = drop (2 * LZ.count_prefix data_bits + 1) data_bits) as Hdrop.
  { unfold LZ.remove_prefix. rewrite drop_drop. f_equal. lia. }
  split_and!; [done| |done| |].
  - destruct Hone as [Hone|[Hlen _]]; [by left|by right].
  - intros Hno. destruct Hone as [Hone|[Hlen _]].
    + destruct Hno. by apply list_elem_of_lookup_2 in Hone.
    + rewrite Hdrop. apply drop_ge. lia.
  - rewrite Hdrop. split.
    + intros Hnil. apply (f_equal length) in Hnil.
      rewrite length_drop in Hnil. simpl in Hnil. lia.
    + apply drop_ge.
Qed.

Lemma remove_prefix_total_witness :
  LZ.remove_prefix "000" = [] /\ LZ.remove_prefix "0010" = [].
Proof.
  split.
  - destruct (remove_prefix_total "000") as (c & _ & _ & _ & Hno & _).
    apply Hno. intros H.
    repeat (apply elem_of_cons in H as [H|H]; [discriminate H|]).
    by apply elem_of_nil in H.
  - destruct (remove_prefix_total "0010") as (c & Htake & Hone & _ & _ & Hshort).
    apply Hshort.
    destruct Hone as [Hone | ->]; [|simpl; lia].
    destruct c as [|[|[|c]]]; simpl; try lia; discriminate Hone.
Defined.

(** C9, as stated, fails: ["000"] has no ["1"], and ["001"] announces a
    three-bit length but has one bit left; [remove_prefix] returns the
    empty string on both. *)
Lemma remove_prefix_malformed_returns :
  LZ.count_prefix "000" = 3 /\
  ("1"%char ∉ list_ascii_of_string "000") /\
  LZ.remove_prefix "000" = [] /\
  LZ.count_prefix "001" = 2 /\ LZ.remove_prefix "001" = [].
Proof.
  split_and!; try reflexivity.
  intros H. repeat (apply elem_of_cons in H as [H|H]; [done|]).
  by apply elem_of_nil in H.
Qed.


(** ** lempel_ziv.py: the two coders *)
Section LexiconFacts.
Import LZ.

(** *** Binary numerals *)

Lemma length_bin_pos p : length (bin_pos p) = Pos.size_nat p.
Proof.
  induction p as [p IH|p IH|]; simpl; [| |done];
    rewrite length_app, IH; simpl; lia.
Qed.

Lemma bit_val_snoc (s : str) c :
  bit_val (s ++ [c]) =
  (if decide (c = "1"%char) then 2 * bit_val s + 1 else 2 * bit_val s)%N.
Proof. unfold bit_val. by rewrite foldl_app. Qed.

Lemma bit_val_bin_pos p : bit_val (bin_pos p) = Npos p.
Proof.
  induction p as [p IH|p IH|]; simpl; [| |done];
    change (list_ascii_of_string ?x) with [x] || idtac.
  - change (bin_pos p ++ "1") with (bin_pos p ++ ["1"%char]).
    rewrite bit_val_snoc, IH. by rewrite decide_True.
  - change (bin_pos p ++ "0") with (bin_pos p ++ ["0"%char]).
    rewrite bit_val_snoc, IH. by rewrite decide_False.
Qed.

Lemma bit_val_cons_0 (s : str) : bit_val ("0"%char :: s) = bit_val s.
Proof. done. Qed.

(** The width of [index] is the width of [index - 1], plus one exactly
    when [index] is a power of two. *)
Lemma size_nat_pred p :
  (1 < p)%positive ->
  Pos.size_nat p =
  (if log2_is_integer p then S (Pos.size_nat (Pos.pred p))
   else Pos.size_nat (Pos.pred p)).
Proof.
  induction p as [p IH|p IH|]; intros Hp; [done| |lia].
  simpl. destruct (decide (p = 1%positive)) as [->|Hne]; [done|].
  rewrite IH by lia.
  assert (Pos.pred p~0 = (Pos.pred p)~1)%positive as ->.
  { rewrite <-(Pos.succ_pred p) at 1 by done.
    simpl. apply Pos.pred_double_succ. }
  simpl. by destruct (log2_is_integer p).
Qed.

(** *** One step of the two lexicons *)

#[local] Instance cons_0_inj : Inj (=) (=) (fun k : str => "0" ++ k).
Proof. intros k1 k2 H. by simplify_eq/=. Qed.

Lemma widen_fmap (b : bool) (o : option str) :
  (if b then (fun v : str => "0" ++ v) <$> o else o) = widen b <$> o.
Proof. by destruct b, o. Qed.

Lemma bit_val_widen b c : bit_val (widen b c) = bit_val c.
Proof. by destruct b. Qed.

Lemma length_widen b c :
  length (widen b c) = if b then S (length c) else length c.
Proof. by destruct b. Qed.

Lemma lookup_add_key (L : gmap str str) cur idx c s :
  add_key_to_lexicon L cur idx c !! s =
  if decide (cur ++ "1" = s) then Some (bin_pos idx)
  else widen (log2_is_integer idx) <$>
         (if decide (cur ++ "0" = s) then Some c
          else if decide (cur = s) then None else L !! s).
Proof.
  unfold add_key_to_lexicon. cbv zeta. rewrite lookup_insert.
  case_decide; [done|]. rewrite <-widen_fmap.
  assert ((<[cur ++ "0" := c]> (delete cur L)) !! s =
          (if decide (cur ++ "0" = s) then Some c
           else if decide (cur = s) then None else L !! s)) as <-.
  { by rewrite lookup_insert, lookup_delete. }
  destruct (log2_is_integer idx); [|done]. by rewrite lookup_fmap.
Qed.

Lemma lookup_add_key_is_Some (L : gmap str str) cur idx c s :
  is_Some (add_key_to_lexicon L cur idx c !! s) <->
  s = cur ++ "1" \/ s = cur ++ "0" \/ (s <> cur /\ is_Some (L !! s)).
Proof.
  rewrite lookup_add_key.
  destruct (decide (cur ++ "1" = s)) as [<-|H1].
  { split; [intros _; by left|intros _; by eexists]. }
  rewrite fmap_is_Some. destruct (decide (cur ++ "0" = s)) as [<-|H2].
  { split; [intros _; right; by left|intros _; by eexists]. }
  destruct (decide (cur = s)) as [<-|H3].
  - split; [by intros ?%is_Some_None|intros [?|[?|[? _]]]; done].
  - split; [intros ?; right; right; done|intros [?|[?|[_ ?]]]; done].
Qed.

Lemma lookup_add_code_widen (D : gmap str str) code idx s0 c' :
  (bit_val c' < Npos idx)%N ->
  add_code_to_lexicon D code idx s0 !! widen (log2_is_integer idx) c' =
  <[code := s0 ++ "0"]> D !! c'.
Proof.
  intros Hval. unfold add_code_to_lexicon. cbv zeta.
  rewrite lookup_insert_ne.
  - destruct (log2_is_integer idx); [|done].
    apply (lookup_kmap (fun k : str => "0" ++ k)).
  - intros Heq%(f_equal bit_val).
    rewrite bit_val_bin_pos, bit_val_widen in Heq. lia.
Qed.

Lemma lookup_add_code_Some (D : gmap str str) code idx s0 c1 s :
  add_code_to_lexicon D code idx s0 !! c1 = Some s ->
  c1 = bin_pos idx \/
  exists c', c1 = widen (log2_is_integer idx) c' /\
    <[code := s0 ++ "0"]> D !! c' = Some s.
Proof.
  unfold add_code_to_lexicon. cbv zeta.
  intros [[<- _]|[_ H]]%lookup_insert_Some; [by left|right].
  destruct (log2_is_integer idx).
  - apply (lookup_kmap_Some (fun k : str => "0" ++ k)) in H
      as (c' & -> & H). by exists c'.
  - by exists c1.
Qed.

(** The two lexicons agree at the start. *)
Lemma lexicons_agree_initial :
  lexicons_agree (lexicon initial) (lexicon initial) (index initial).
Proof.
  assert (forall s c : str, lexicon initial !! s = Some c ->
            (s = "0" /\ c = "0") \/ (s = "1" /\ c = "1")) as Hinit.
  { intros s c. unfold initial. cbn [lexicon].
    intros [[<- <-]|[_ [<- <-]%lookup_singleton_Some]]%lookup_insert_Some;
      auto. }
  split.
  - done.
  - by intros s c [[-> ->]|[-> ->]]%Hinit.
  - by intros c s [[-> ->]|[-> ->]]%Hinit.
  - intros [|x t] Ht.
    + right. exists 0. by eexists.
    + left. apply Forall_cons in Ht as [[-> | ->] _].
      * exists "0". split; [by apply prefix_cons, prefix_nil|by eexists].
      * exists "1". split; [by apply prefix_cons, prefix_nil|by eexists].
  - done.
  - intros s c [[-> ->]|[-> ->]]%Hinit; simpl; lia.
Qed.

(** A match keeps the two lexicons in agreement. *)
Lemma lexicons_agree_match (L D : gmap str str) idx cur c :
  lexicons_agree L D idx -> L !! cur = Some c ->
  lexicons_agree (add_key_to_lexicon L cur idx c)
                 (add_code_to_lexicon D c idx cur) (Pos.succ idx).
Proof.
  intros [Hidx Hcode Hwidth Hcomplete Hnil Hlen] Hcur.
  pose proof (Hcode _ _ Hcur) as HD.
  destruct (Hwidth _ _ HD) as [Hwc Hvc].
  split.
  - lia.
  - intros s c1. rewrite lookup_add_key.
    case_decide as H1; [intros [= <-]; subst s|].
    { unfold add_code_to_lexicon. cbv zeta. apply lookup_insert_eq. }
    intros (c0 & H0 & ->)%fmap_Some.
    case_decide as H2; [injection H0 as <-; subst s|].
    { rewrite lookup_add_code_widen by done. apply lookup_insert_eq. }
    case_decide as H3; [done|].
    pose proof (Hcode _ _ H0) as HD0.
    rewrite lookup_add_code_widen by (by apply (Hwidth _ _ HD0)).
    rewrite lookup_insert_ne; [done|]. intros <-. congruence.
  - intros c1 s H. rewrite Pos.pred_succ.
    apply lookup_add_code_Some in H as [->|(c' & -> & H)].
    { rewrite length_bin_pos, bit_val_bin_pos. split; [done|lia]. }
    assert (exists s', D !! c' = Some s') as [s' Hs'].
    { apply lookup_insert_Some in H as [[<- _]|[_ ?]]; eauto. }
    destruct (Hwidth _ _ Hs') as [Hw Hv].
    rewrite length_widen, bit_val_widen, Hw, (size_nat_pred idx Hidx).
    split; [by destruct (log2_is_integer idx)|lia].
  - intros t Ht. setoid_rewrite lookup_add_key_is_Some.
    destruct (Hcomplete t Ht) as [(p & Hp & HLp)|(k & HLk)].
    + destruct (decide (p = cur)) as [->|Hne]; [|left; exists p; eauto].
      destruct Hp as [[|x t'] ->].
      * right. exists 0. rewrite app_nil_r. auto.
      * left. apply bits_app in Ht as [_ Ht].
        apply Forall_cons in Ht as [[-> | ->] _].
        -- exists (cur ++ "0"). split; [|auto].
           by apply prefix_app, prefix_cons, prefix_nil.
        -- exists (cur ++ "1"). split; [|auto].
           by apply prefix_app, prefix_cons, prefix_nil.
    + right. destruct (decide (t ++ replicate (S k) "0"%char = cur))
        as [<-|Hne]; [|exists k; auto].
      exists (S k). right. left.
      rewrite (replicate_S_end (S k)). by rewrite app_assoc.
  - rewrite lookup_add_key.
    rewrite !decide_False by (by destruct cur).
    rewrite Hnil. by case_decide.
  - intros s c1 H. rewrite Pos2Nat.inj_succ.
    assert (is_Some (add_key_to_lexicon L cur idx c !! s)) as H' by eauto.
    pose proof (Hlen _ _ Hcur) as Hlcur.
    apply lookup_add_key_is_Some in H' as [->|[->|[_ [c0 H0]]]].
    + rewrite length_app. simpl. lia.
    + rewrite length_app. simpl. lia.
    + pose proof (Hlen _ _ H0). lia.
Qed.
End LexiconFacts.

Section CoderFacts.
Import LZ.

(** *** Reading one code *)

(** All codes have one width, so the decoder matches a code exactly at
    its last bit. *)
Lemma decompress_read (code : str) : forall (st : state) (s : str),
  (forall c s', lexicon st !! c = Some s' ->
     length c = length (curr_string st ++ code)) ->
  code <> [] ->
  lexicon st !! (curr_string st ++ code) = Some s ->
  foldl decompress_step st code
    = decompress_match st (curr_string st ++ code) s.
Proof.
  induction code as [|x code IH]; intros st s Hwidth Hne Hs; [done|].
  cbn [foldl]. destruct code as [|y code].
  - cbn [foldl]. unfold decompress_step. by rewrite Hs.
  - assert (lexicon st !! (curr_string st ++ [x]) = None) as Hnone.
    { destruct (lexicon st !! (curr_string st ++ [x])) as [s'|] eqn:Hx;
        [|done].
      apply Hwidth in Hx. rewrite !length_app in Hx. simpl in Hx. lia. }
    unfold decompress_step at 2. rewrite Hnone.
    rewrite (IH _ s); cbn [lexicon curr_string]; rewrite <-?app_assoc;
      try done.
Qed.

(** *** The padding loop *)

Lemma pad_loop_Some (L : gmap str str) k : forall fuel (cur : str),
  cur <> [] ->
  is_Some (L !! (cur ++ replicate k "0"%char)) ->
  k <= fuel ->
  exists k',
    pad_loop fuel L cur = Some (cur ++ replicate k' "0"%char) /\
    is_Some (L !! (cur ++ replicate k' "0"%char)).
Proof.
  induction k as [|k IH]; intros fuel cur Hne Hk Hfuel.
  - exists 0. rewrite app_nil_r in *. destruct Hk as [c Hc].
    destruct fuel; simpl; rewrite decide_False, Hc by done; eauto.
  - destruct (L !! cur) as [c|] eqn:Hc.
    + exists 0. rewrite app_nil_r.
      destruct fuel; simpl; rewrite decide_False, Hc by done; eauto.
    + destruct fuel as [|fuel]; [lia|].
      destruct (IH fuel (cur ++ "0")) as (k' & Hpad & Hk').
      * by destruct cur.
      * by rewrite <-app_assoc.
      * lia.
      * exists (S k'). simpl. rewrite decide_False, Hc by done.
        rewrite <-app_assoc in Hpad, Hk'. eauto.
Qed.

(** *** The scanning loops, side by side *)

Lemma prefix_snoc_inv (p l : str) x :
  p `prefix_of` l ++ [x] -> p = l ++ [x] \/ p `prefix_of` l.
Proof.
  intros [k Hk]. destruct k as [|y k _] using rev_ind.
  - left. by rewrite app_nil_r in Hk.
  - right. rewrite app_assoc in Hk. apply app_inj_tail in Hk as [-> _].
    by exists k.
Qed.

Lemma size_nat_pos p : 0 < Pos.size_nat p.
Proof. destruct p; simpl; lia. Qed.

(** Whatever [compress_data] scans, [decompress_data] reads back from the
    codes that the scan has put out; the candidate is what is left. *)
Lemma scan_round_trip (b : str) : forall stc std : state,
  lexicons_agree (lexicon stc) (lexicon std) (index stc) ->
  index std = index stc -> curr_string std = [] ->
  bits b ->
  (forall p, p `prefix_of` curr_string stc -> lexicon stc !! p = None) ->
  let stc' := foldl compress_step stc b in
  exists out,
    let std' := foldl decompress_step std out in
    result stc' = result stc ++ out /\
    lexicons_agree (lexicon stc') (lexicon std') (index stc') /\
    index std' = index stc' /\ curr_string std' = [] /\
    result std' ++ curr_string stc' = result std ++ curr_string stc ++ b /\
    (forall p, p `prefix_of` curr_string stc' -> lexicon stc' !! p = None) /\
    Pos.to_nat (index stc') + length (curr_string stc')
      <= Pos.to_nat (index stc) + length (curr_string stc) + length b.
Proof.
  induction b as [|x b IH]; intros stc std Hagree Hidx Hcur Hb Hpre.
  { exists []. simpl. rewrite !app_nil_r. split_and!; auto. lia. }
  apply Forall_cons in Hb as [Hx Hb]. cbn [foldl].
  destruct (lexicon stc !! (curr_string stc ++ [x])) as [c|] eqn:Hlk.
  - (* the candidate is in the lexicon: a code goes out *)
    assert (compress_step stc x
            = compress_match stc (curr_string stc ++ [x]) c) as ->.
    { unfold compress_step. by rewrite Hlk. }
    pose proof (agree_code _ _ _ Hagree _ _ Hlk) as HD.
    destruct (agree_width _ _ _ Hagree _ _ HD) as [Hwc _].
    assert (foldl decompress_step std c
            = decompress_match std c (curr_string stc ++ [x])) as Hread.
    { rewrite (decompress_read c std (curr_string stc ++ [x]));
        rewrite ?Hcur; cbn [app]; [done| | |done].
      - intros c' s' Hc'.
        destruct (agree_width _ _ _ Hagree _ _ Hc') as [-> _]. done.
      - intros ->. pose proof (size_nat_pos (Pos.pred (index stc))).
        simpl in Hwc. lia. }
    destruct (IH (compress_match stc (curr_string stc ++ [x]) c)
                 (decompress_match std c (curr_string stc ++ [x])))
      as (out & Hres & Hagree' & Hidx' & Hcur' & Hout & Hpre' & Hlen');
      cbn [lexicon index curr_string result compress_match decompress_match].
    + rewrite Hidx. by apply lexicons_agree_match.
    + by rewrite Hidx.
    + done.
    + done.
    + intros p ->%prefix_nil_inv.
      eapply agree_nonempty, lexicons_agree_match; done.
    + exists (c ++ out). cbv zeta. rewrite foldl_app, Hread.
      cbn [lexicon index curr_string result compress_match decompress_match]
        in *.
      split_and!; try done.
      * by rewrite Hres, <-app_assoc.
      * rewrite Hout. by rewrite <-!app_assoc.
      * rewrite Pos2Nat.inj_succ in Hlen'. simpl in *. lia.
  - (* the candidate grows *)
    assert (compress_step stc x
            = {| lexicon := lexicon stc; result := result stc;
                 curr_string := curr_string stc ++ [x];
                 index := index stc |}) as ->.
    { unfold compress_step. by rewrite Hlk. }
    destruct (IH {| lexicon := lexicon stc; result := result stc;
                    curr_string := curr_string stc ++ [x];
                    index := index stc |} std)
      as (out & Hres & Hagree' & Hidx' & Hcur' & Hout & Hpre' & Hlen');
      cbn [lexicon index curr_string result]; try done.
    + intros p [->|Hp]%prefix_snoc_inv; auto.
    + exists out. cbv zeta.
      cbn [lexicon index curr_string result] in *.
      split_and!; try done.
      * rewrite Hout. by rewrite <-!app_assoc.
      * rewrite length_app in Hlen'. simpl in *. lia.
Qed.

(** With enough fuel for the padding loop, [compress_data] returns, and
    [decompress_data] gives back the input followed by the ["0"]s that the
    padding loop appended to the last candidate; there are none exactly when
    the scan ends with an empty candidate. *)
Lemma compress_decompress (b : str) (fuel : nat) :
  bits b -> length b <= fuel ->
  exists out k,
    compress_data fuel b = Some out /\
    decompress_data out = b ++ replicate k "0"%char /\
    (k = 0 <-> curr_string (foldl compress_step initial b) = []).
Proof.
  intros Hb Hfuel.
  destruct (scan_round_trip b initial initial)
    as (out & Hres & Hagree & Hidx & Hcur & Hout & Hpre & Hlen);
    [apply lexicons_agree_initial|done|done|done| |].
  { intros p ->%prefix_nil_inv. apply lexicons_agree_initial. }
  cbv zeta in *. unfold compress_data.
  set (stc := foldl compress_step initial b) in *.
  set (std := foldl decompress_step initial out) in *.
  change (result initial) with (@nil ascii) in *.
  change (curr_string initial) with (@nil ascii) in *.
  change (index initial) with 2%positive in *.
  cbn [app length] in *.
  destruct (decide (curr_string stc = [])) as [Hnil|Hne].
  - (* nothing is left over *)
    exists out, 0. rewrite Hnil in *. rewrite app_nil_r in *.
    split_and!; [|by rewrite <-Hout|done].
    assert (pad_loop fuel (lexicon stc) [] = Some []) as ->
      by (by destruct fuel).
    cbn [mbind option_bind]. by rewrite decide_True, Hres.
  - (* a candidate is left over and is padded *)
    assert (bits (curr_string stc)) as Hbits.
    { assert (bits (result std ++ curr_string stc)) as H
        by (by rewrite Hout).
      by apply bits_app in H as [_ ?]. }
    destruct (agree_complete _ _ _ Hagree _ Hbits)
      as [(p & Hp & HLp)|(k & HLk)].
    { apply Hpre in Hp. rewrite Hp in HLp. by apply is_Some_None in HLp. }
    assert (S k <= fuel) as Hk.
    { destruct HLk as [c Hc].
      apply (agree_length _ _ _ Hagree) in Hc.
      rewrite length_app, length_replicate in Hc.
      assert (0 < length (curr_string stc))
        by (destruct (curr_string stc); simpl; [done|lia]).
      lia. }
    destruct (pad_loop_Some _ _ fuel _ Hne HLk Hk) as (k' & -> & [c Hc]).
    exists (out ++ c), k'.
    assert (curr_string stc ++ replicate k' "0"%char <> []) as Hne'
      by (by destruct (curr_string stc)).
    split_and!.
    + cbn [mbind option_bind]. rewrite decide_False by done.
      rewrite Hc. cbn [mbind option_bind]. by rewrite Hres.
    + unfold decompress_data. rewrite foldl_app. fold std.
      pose proof (agree_code _ _ _ Hagree _ _ Hc) as HD.
      destruct (agree_width _ _ _ Hagree _ _ HD) as [Hwc _].
      rewrite (decompress_read c std
                 (curr_string stc ++ replicate k' "0"%char));
        rewrite ?Hcur; cbn [app].
      * cbn [decompress_match result].
        by rewrite app_assoc, Hout.
      * intros c' s' Hc'.
        destruct (agree_width _ _ _ Hagree _ _ Hc') as [-> _]. done.
      * intros ->. pose proof (size_nat_pos (Pos.pred (index stc))).
        simpl in Hwc. lia.
      * done.
    + split; [|done]. intros ->. rewrite app_nil_r in Hc.
      rewrite Hpre in Hc; done.
Qed.
End CoderFacts.

(** C10. For every non-empty bit string [b], [compress_data] returns (the
    padding loop ends within [len(b)] rounds), the input [b] is a prefix of
    [decompress_data(compress_data(b))], and what follows [b] is only
    ["0"] bits. *)
Theorem lz_round_trip_padded (b : str) (fuel : nat) :
  b <> [] -> LZ.bits b -> length b <= fuel ->
  exists out k,
    LZ.compress_data fuel b = Some out /\
    LZ.decompress_data out = b ++ replicate k "0"%char.
Proof.
  intros _ Hb Hfuel.
  destruct (compress_decompress b fuel Hb Hfuel) as (out & k & ? & ? & _).
  by exists out, k.
Qed.

Lemma lz_round_trip_padded_witness :
  exists out k,
    LZ.compress_data 7 "0101101" = Some out /\
    LZ.decompress_data out
      = list_ascii_of_string "0101101" ++ replicate k "0"%char.
Proof.
  apply (lz_round_trip_padded "0101101" 7).
  - discriminate.
  - repeat (apply Forall_cons; split;
            [first [apply is_bit_0|apply is_bit_1]|]).
    by apply Forall_nil.
  - simpl. lia.
Defined.

(** C1, as the code has it. For every non-empty bit string [b],
    [compress_data] returns, and [decompress_data(compress_data(b)) == b]
    holds exactly when the scan of [b] ends with an empty candidate, that
    is, when [b] is a sequence of whole lexicon entries; otherwise the
    result is [b] followed by one or more ["0"] bits. *)
Theorem lz_round_trip_exact (b : str) (fuel : nat) :
  b <> [] -> LZ.bits b -> length b <= fuel ->
  exists out,
    LZ.compress_data fuel b = Some out /\
    (LZ.decompress_data out = b <->
     LZ.curr_string (foldl LZ.compress_step LZ.initial b) = []) /\
    (LZ.curr_string (foldl LZ.compress_step LZ.initial b) <> [] ->
     exists k, LZ.decompress_data out = b ++ replicate (S k) "0"%char).
Proof.
  intros _ Hb Hfuel.
  destruct (compress_decompress b fuel Hb Hfuel)
    as (out & k & Hout & Hdec & Hk).
  exists out. split_and!; [done| |].
  - rewrite <-Hk, Hdec. split.
    + intros H%(f_equal length).
      rewrite length_app, length_replicate in H. lia.
    + intros ->. by rewrite app_nil_r.
  - intros Hne. destruct k as [|k]; [|by exists k].
    destruct Hne. by apply Hk.
Qed.

Lemma lz_round_trip_exact_witness :
  exists out,
    LZ.compress_data 2 "01" = Some out /\
    (LZ.decompress_data out = list_ascii_of_string "01" <->
     LZ.curr_string (foldl LZ.compress_step LZ.initial "01") = []) /\
    (LZ.curr_string (foldl LZ.compress_step LZ.initial "01") <> [] ->
     exists k,
       LZ.decompress_data out
         = list_ascii_of_string "01" ++ replicate (S k) "0"%char).
Proof.
  apply (lz_round_trip_exact "01" 2).
  - discriminate.
  - repeat (apply Forall_cons; split;
            [first [apply is_bit_0|apply is_bit_1]|]).
    by apply Forall_nil.
  - simpl. lia.
Defined.

(** C1, as stated, fails: the two-bit string ["00"] is compressed to
    ["000"], which is decompressed to ["000"]. *)
Lemma lz_round_trip_fails :
  LZ.compress_data 2 "00" = Some (list_ascii_of_string "000") /\
  LZ.decompress_data "000" = list_ascii_of_string "000" /\
  LZ.decompress_data "000" <> list_ascii_of_string "00".
Proof. split_and!; [by vm_compute..|]. by vm_compute. Qed.


(** * Further properties *)

(** ** burrows_wheeler.py *)
Section BWTMore.
Import BWT.

Lemma mapM_last_omap (rows : list str) (lasts : str) :
  mapM last rows = Some lasts -> lasts = omap last rows.
Proof.
  intros H%mapM_Some_1.
  induction H as [|r c rows lasts Hrc _ IH]; [done|].
  csimpl. rewrite Hrc. by f_equal.
Qed.

Lemma last_head_rotr (r : str) : last r = head (rotr r).
Proof.
  destruct r as [|c l _] using rev_ind; [done|].
  by rewrite rotr_snoc, last_snoc.
Qed.

(** The first characters of the rotations spell the string. *)
Lemma heads_of_rotations (s : str) (f : nat -> str) m : forall k,
  k + m <= length s ->
  omap head ((fun i => drop i s ++ f i) <$> seq k m) = take m (drop k s).
Proof.
  induction m as [|m IH]; intros k Hk; [done|].
  destruct (lookup_lt_is_Some_2 s k) as [x Hx]; [lia|].
  csimpl. rewrite (drop_S _ x k) by done. simpl.
  rewrite IH by lia. done.
Qed.

Lemma lasts_of_rotations (s : str) : omap last (all_rotations s) ≡ₚ s.
Proof.
  rewrite (list_omap_ext _ head _ (rotr <$> all_rotations s)).
  - rewrite all_rotations_rotr. unfold all_rotations.
    change (map ?f ?l) with (f <$> l).
    rewrite (heads_of_rotations s (fun i => take i s)) by lia.
    by rewrite drop_0, firstn_all.
  - apply Forall2_fmap_r, Forall_Forall2_diag, Forall_forall.
    intros r _. apply last_head_rotr.
Qed.
End BWTMore.

(** X1. [bwt_transform] raises [ValueError] on the empty string and on no
    other; on a non-empty string it returns a [bwt_string] as long as the
    input and an index within it. *)
Theorem bwt_transform_outcome (s : str) :
  match BWT.bwt_transform s with
  | Returns r =>
      s <> [] /\ length (BWT.bwt_string r) = length s /\
      (0 <= BWT.idx_original_string r < Z.of_nat (length s))%Z
  | Raises e => s = [] /\ e = ValueError
  end.
Proof.
  unfold BWT.bwt_transform. destruct (decide (s = [])) as [->|Hs]; [done|].
  destruct (table_lasts s Hs) as (bwt & Hbwt & Hlen).
  destruct (index_Some s (sorted_rotations s)) as (i & Hi & Hrow).
  { rewrite table_perm. by apply elem_of_all_rotations. }
  fold (sorted_rotations s). rewrite Hbwt, Hi. simpl.
  apply lookup_lt_Some in Hrow. rewrite table_length in Hrow.
  split_and!; [done|done|lia|lia].
Qed.

(** X2. The [bwt_string] that [bwt_transform] returns is a rearrangement
    of the characters of its argument. *)
Theorem bwt_string_permutation (s : str) (r : BWT.BWTTransformDict) :
  BWT.bwt_transform s = Returns r -> BWT.bwt_string r ≡ₚ s.
Proof.
  unfold BWT.bwt_transform. destruct (decide (s = [])) as [->|Hs]; [done|].
  fold (sorted_rotations s).
  destruct (mapM last (sorted_rotations s)) as [bwt|] eqn:Hbwt; [|done].
  destruct (BWT.index s (sorted_rotations s)) as [i|]; [|done].
  simpl. intros [= <-]. simpl.
  rewrite (mapM_last_omap _ _ Hbwt), table_perm.
  apply lasts_of_rotations.
Qed.

Lemma bwt_string_permutation_witness :
  list_ascii_of_string "aaaadss_c__aa" ≡ₚ list_ascii_of_string "a_asa_da_casa".
Proof.
  apply (bwt_string_permutation "a_asa_da_casa"
           {| BWT.bwt_string := "aaaadss_c__aa";
              BWT.idx_original_string := 3 |}).
  reflexivity.
Defined.

Section BWTIndex.
Import BWT.

Lemma index_lookup s (l : list str) i : index s l = Some i -> l !! i = Some s.
Proof.
  revert i. induction l as [|r l IH]; intros i; [done|]. simpl.
  destruct (decide (r = s)) as [->|Hne]; [by intros [= <-]|].
  destruct (index s l) as [i'|]; [|done]. intros [= <-]. by apply IH.
Qed.

Lemma filter_none {A} (P : A -> Prop) `{forall x, Decision (P x)} (l : list A) :
  Forall (fun x => ~ P x) l -> filter P l = [].
Proof.
  induction 1 as [|x l Hx _ IH]; [done|]. by rewrite filter_cons_False.
Qed.

(** In a sorted list, the first position of [s] is the number of entries
    that are smaller than [s]. *)
Lemma index_sorted_count s (l : list str) : forall i,
  StronglySorted str_le l -> index s l = Some i ->
  i = length (filter (fun r => str_leb s r = false) l).
Proof.
  induction l as [|r l IH]; intros i Hl Hi; [done|].
  apply StronglySorted_cons in Hl as [Hr Hl]. simpl in Hi.
  destruct (decide (r = s)) as [->|Hne].
  - injection Hi as <-.
    rewrite filter_cons_False by (by rewrite str_leb_refl).
    rewrite filter_none; [done|].
    eapply Forall_impl; [exact Hr|]. intros x Hx. unfold str_le in Hx.
    by rewrite Hx.
  - destruct (index s l) as [i'|] eqn:Hi'; [|done]. injection Hi as <-.
    assert (str_le r s) as Hrs.
    { rewrite Forall_forall in Hr. apply Hr.
      eapply list_elem_of_lookup_2, index_lookup, Hi'. }
    rewrite filter_cons_True.
    + simpl. f_equal. by apply IH.
    + destruct (str_leb s r) eqn:Hsr; [|done].
      destruct Hne. by apply str_leb_antisym.
Qed.

(** The rows keep one length, which grows by one in every round. *)
Lemma rebuild_row_lengths bwt k : forall (rows rows' : list str) j,
  length rows = length bwt ->
  Forall (fun r => length r = j) rows ->
  rebuild bwt k rows = Some rows' ->
  Forall (fun r => length r = j + k) rows'.
Proof.
  induction k as [|k IH]; intros rows rows' j Hlen Hrows; simpl.
  - intros [= <-]. by rewrite Nat.add_0_r.
  - rewrite prepend_all_zip by done. simpl. intros Hre.
    replace (j + S k) with (S j + k) by lia.
    apply (IH _ _ (S j)) in Hre; [done| |].
    + rewrite length_sort, length_zip_with. lia.
    + apply Forall_forall. intros r Hr. rewrite sort_perm in Hr.
      apply elem_of_zip_with in Hr as (c & r0 & -> & _ & Hr0).
      rewrite Forall_forall in Hrows. simpl. f_equal. by apply Hrows.
Qed.

(** Rotating a string by one position permutes its rotations. *)
Lemma all_rotations_of_rotr (s : str) :
  all_rotations (rotr s) ≡ₚ all_rotations s.
Proof.
  destruct s as [|x l _] using rev_ind; [done|].
  etrans; [|apply all_rotations_rotr].
  match goal with |- ?a ≡ₚ ?b => enough (a = b) as -> by done end.
  rewrite rotr_snoc. unfold all_rotations.
  change (map ?f ?l) with (f <$> l). rewrite <-list_fmap_compose.
  rewrite length_app. cbn [length]. rewrite Nat.add_1_r.
  apply Forall_fmap_ext_1, Forall_forall. intros j Hj%elem_of_seq. simpl.
  destruct j as [|j].
  - rewrite !drop_0, !take_0, !app_nil_r. by rewrite rotr_snoc.
  - rewrite rotr_rot_S by (rewrite length_app; simpl; lia).
    simpl. rewrite drop_app_le, take_app_le by lia.
    by rewrite <-app_assoc.
Qed.

Lemma all_rotations_of_rotation (s : str) i :
  all_rotations (drop i s ++ take i s) ≡ₚ all_rotations s.
Proof.
  induction i as [|i IH].
  - by rewrite drop_0, app_nil_r.
  - destruct (decide (S i <= length s)) as [Hi|Hi].
    + rewrite <-IH, <-(rotr_rot_S s i) by done.
      symmetry. apply all_rotations_of_rotr.
    + by rewrite drop_ge, take_ge by lia.
Qed.
End BWTIndex.

(** X3. The index that [bwt_transform] returns is the number of rotations
    of the string that are smaller than the string itself. *)
Theorem bwt_index_counts_smaller (s : str) (r : BWT.BWTTransformDict) :
  BWT.bwt_transform s = Returns r ->
  BWT.idx_original_string r =
  Z.of_nat (length (filter (fun t => str_leb s t = false)
                           (BWT.all_rotations s))).
Proof.
  unfold BWT.bwt_transform. destruct (decide (s = [])) as [->|Hs]; [done|].
  fold (sorted_rotations s).
  destruct (mapM last (sorted_rotations s)) as [bwt|]; [|done].
  destruct (BWT.index s (sorted_rotations s)) as [i|] eqn:Hi; [|done].
  simpl. intros [= <-]. simpl. f_equal.
  rewrite <-(table_perm s).
  apply index_sorted_count; [apply sort_str_sorted|done].
Qed.

Lemma bwt_index_counts_smaller_witness :
  3%Z =
  Z.of_nat (length (filter (fun t => str_leb "a_asa_da_casa" t = false)
                           (BWT.all_rotations "a_asa_da_casa"))).
Proof.
  apply (bwt_index_counts_smaller "a_asa_da_casa"
           {| BWT.bwt_string := "aaaadss_c__aa";
              BWT.idx_original_string := 3 |}).
  reflexivity.
Defined.

(** X4. Whatever [reverse_bwt] returns is as long as its argument
    [bwt_string], also when that string is not the transform of
    anything. *)
Theorem reverse_bwt_length (bwt_string : str) (idx : Z) (r : str) :
  BWT.reverse_bwt bwt_string idx = Returns r -> length r = length bwt_string.
Proof.
  unfold BWT.reverse_bwt.
  destruct (decide (bwt_string = [])); [done|].
  destruct (idx <? 0)%Z; [done|].
  destruct (idx >=? Z.of_nat (length bwt_string))%Z; [done|].
  destruct (BWT.rebuild bwt_string (length bwt_string)
              (replicate (length bwt_string) [])) as [rows|] eqn:Hrows;
    [|done].
  simpl.
  destruct (rows !! Z.to_nat idx) as [row|] eqn:Hrow; [|done].
  simpl. intros [= <-].
  apply (rebuild_row_lengths _ _ _ _ 0) in Hrows.
  - rewrite Forall_forall in Hrows.
    by apply Hrows, list_elem_of_lookup_2 with (Z.to_nat idx).
  - by rewrite length_replicate.
  - by apply Forall_replicate.
Qed.

Lemma reverse_bwt_length_witness :
  length (list_ascii_of_string "bb") = length (list_ascii_of_string "ab").
Proof. apply (reverse_bwt_length "ab" 1 "bb"). reflexivity. Defined.

(** X5. Every rotation [s[i:] + s[:i]] of a string has the [bwt_string]
    of the string: the transform tells rotations apart by the index
    only. *)
Theorem bwt_string_of_rotation (s : str) (i : nat) (r : BWT.BWTTransformDict) :
  BWT.bwt_transform s = Returns r ->
  exists r', BWT.bwt_transform (drop i s ++ take i s) = Returns r' /\
    BWT.bwt_string r' = BWT.bwt_string r.
Proof.
  unfold BWT.bwt_transform. destruct (decide (s = [])) as [->|Hs]; [done|].
  assert (drop i s ++ take i s <> []) as Hs'.
  { intros H%(f_equal length).
    rewrite length_app, length_drop, length_take in H.
    destruct s; simpl in *; [done|lia]. }
  rewrite decide_False by done.
  assert (sort str_leb (BWT.all_rotations (drop i s ++ take i s))
          = sorted_rotations s) as ->.
  { apply sort_str_unique; [|apply sort_str_sorted].
    by rewrite all_rotations_of_rotation, table_perm. }
  fold (sorted_rotations s).
  destruct (mapM last (sorted_rotations s)) as [bwt|]; [|done].
  destruct (BWT.index s (sorted_rotations s)) as [j|]; [|done].
  simpl. intros [= <-].
  destruct (index_Some (drop i s ++ take i s) (sorted_rotations s))
    as (j' & -> & _).
  { rewrite table_perm, <-(all_rotations_of_rotation s i).
    by apply elem_of_all_rotations. }
  by eexists.
Qed.

Lemma bwt_string_of_rotation_witness :
  exists r',
    BWT.bwt_transform (drop 4 (list_ascii_of_string "a_asa_da_casa")
                       ++ take 4 (list_ascii_of_string "a_asa_da_casa"))
      = Returns r' /\
    BWT.bwt_string r' = list_ascii_of_string "aaaadss_c__aa".
Proof.
  apply (bwt_string_of_rotation "a_asa_da_casa" 4
           {| BWT.bwt_string := "aaaadss_c__aa";
              BWT.idx_original_string := 3 |}).
  reflexivity.
Defined.

(** ** huffman.py *)
Section HuffmanMore.
Import Huffman.

Lemma dict_get_set {K V} `{EqDecision K} (d : list (K * V)) k v k' :
  dict_get (dict_set d k v) k' =
  if decide (k = k') then Some v else dict_get d k'.
Proof.
  induction d as [|[k0 v0] d IH]; simpl.
  - by destruct (decide (k = k')).
  - destruct (decide (k0 = k)) as [->|Hne]; simpl.
    + by destruct (decide (k = k')).
    + rewrite IH. destruct (decide (k0 = k')) as [->|?]; [|done].
      by rewrite decide_False.
Qed.

Lemma dict_get_elem_NoDup {K V} `{EqDecision K} (d : list (K * V)) k v :
  NoDup d.*1 -> (k, v) ∈ d -> dict_get d k = Some v.
Proof.
  induction d as [|[k0 v0] d IH]; [by intros _ ?%elem_of_nil|].
  csimpl. intros [Hk0 Hd]%NoDup_cons [[= -> ->]|Hin]%elem_of_cons.
  - by rewrite decide_True.
  - rewrite decide_False; [by apply IH|].
    intros ->. apply Hk0. by apply (list_elem_of_fmap_2 fst _ (k, v)).
Qed.

Let count_step (chars : list (str * nat)) (c : str) : list (str * nat) :=
  dict_set chars c
    (match dict_get chars c with Some n => n + 1 | None => 1 end).

(** The counter of every symbol is the number of its occurrences. *)
Lemma count_fold_get raw : forall chars c,
  dict_get (foldl count_step chars raw) c =
  match dict_get chars c, occurrences c raw with
  | o, 0 => o
  | Some n, m => Some (n + m)
  | None, m => Some m
  end.
Proof.
  unfold occurrences.
  induction raw as [|x raw IH]; intros chars c; simpl.
  - by destruct (dict_get chars c).
  - rewrite IH. unfold count_step. rewrite dict_get_set.
    destruct (decide (x = c)) as [->|Hne].
    + rewrite filter_cons_True by done. simpl.
      destruct (dict_get chars c) as [n|];
        destruct (length (filter _ raw)); f_equal; lia.
    + by rewrite filter_cons_False.
Qed.

Lemma count_chars_get raw c :
  dict_get (count_chars raw) c =
  if decide (occurrences c raw = 0) then None else Some (occurrences c raw).
Proof.
  unfold count_chars.
  change (foldl _ [] raw) with (foldl count_step [] raw).
  rewrite count_fold_get. simpl. by destruct (occurrences c raw).
Qed.

Lemma occurrences_pos c raw : c ∈ raw <-> 0 < occurrences c raw.
Proof.
  unfold occurrences. induction raw as [|x raw IH].
  - split; [by intros ?%elem_of_nil|simpl; lia].
  - destruct (decide (x = c)) as [->|Hne].
    + rewrite filter_cons_True by done. simpl. split; [lia|by left].
    + rewrite filter_cons_False by done. rewrite <-IH.
      rewrite elem_of_cons. split; [by intros [->|?]|by right].
Qed.

Lemma count_chars_elem raw c n :
  (c, n) ∈ count_chars raw <-> n = occurrences c raw /\ c ∈ raw.
Proof.
  split.
  - intros Hin.
    apply (dict_get_elem_NoDup _ _ _ (count_chars_NoDup raw)) in Hin.
    rewrite count_chars_get in Hin. rewrite occurrences_pos.
    case_decide; [done|]. injection Hin as <-. split; [done|lia].
  - intros [-> Hc]. apply dict_get_Some_elem. rewrite count_chars_get.
    apply occurrences_pos in Hc. rewrite decide_False; [done|lia].
Qed.

Lemma count_chars_sum raw : sum_list (count_chars raw).*2 = length raw.
Proof.
  unfold count_chars.
  change (foldl _ [] raw) with (foldl count_step [] raw).
  enough (forall chars,
            sum_list (foldl count_step chars raw).*2
            = sum_list chars.*2 + length raw) as H by apply (H []).
  induction raw as [|x raw IH]; intros chars; simpl; [lia|].
  rewrite IH. enough (sum_list (count_step chars x).*2
                      = S (sum_list chars.*2)) as -> by lia.
  unfold count_step. clear.
  induction chars as [|[k v] chars IH]; simpl; [done|].
  destruct (decide (k = x)) as [->|Hne]; csimpl; [unfold id; lia|].
  rewrite IH. lia.
Qed.

Lemma freq_leb_total (x y : Letter) :
  (freq x <=? freq y) = true \/ (freq y <=? freq x) = true.
Proof. rewrite !Nat.leb_le. lia. Qed.

Lemma freq_leb_trans (x y z : Letter) :
  (freq x <=? freq y) = true -> (freq y <=? freq z) = true ->
  (freq x <=? freq z) = true.
Proof. rewrite !Nat.leb_le. lia. Qed.

(** *** The frequencies in the tree *)

Lemma tree_sums_freq t :
  tree_sums t -> tree_freq t = sum_list_with freq (leaves t).
Proof.
  induction t as [l|f t1 IH1 t2 IH2]; simpl; [lia|].
  intros (-> & H1 & H2). rewrite sum_list_with_app, IH1, IH2; done.
Qed.

Lemma build_tree_loop_sums n : forall ts,
  length ts = n -> Forall tree_sums ts ->
  Forall tree_sums (build_tree_loop ts).
Proof.
  induction n as [n IH] using lt_wf_ind. intros ts Hn Hts.
  destruct ts as [|a [|b rest]]; simp build_tree_loop; [done..|].
  apply Forall_cons in Hts as [Ha Hts].
  apply Forall_cons in Hts as [Hb Hts].
  apply (IH (S (length rest))).
  - simpl in Hn. lia.
  - rewrite length_sort, length_app. simpl. lia.
  - apply Forall_forall. intros t Ht. rewrite sort_perm in Ht.
    apply elem_of_app in Ht as [Ht|Ht%list_elem_of_singleton].
    + rewrite Forall_forall in Hts. by apply Hts.
    + by subst t.
Qed.

(** What [huffman_encode] does on a non-empty list, with the tree. *)
Lemma huffman_encode_tree raw :
  raw <> [] ->
  exists t,
    build_tree (parse_file raw) = Returns t /\
    leaves t ≡ₚ parse_file raw /\
    (paths t []).*1 ≡ₚ (count_chars raw).*1 /\
    huffman_encode raw =
      (encode_list ← of_option KeyError (mapM (dict_get (paths t [])) raw);
       Returns {| Huf_encode := encode_list; Huf_letters := paths t [] |}).
Proof.
  intros Hne. unfold huffman_encode.
  destruct (build_tree_spec (parse_file raw)) as (t & Ht & Hleaves).
  { intros Hnil%(f_equal length). unfold parse_file in Hnil.
    rewrite length_sort, length_map in Hnil.
    by apply (count_chars_nonempty raw Hne), nil_length_inv. }
  assert ((paths t []).*1 ≡ₚ (count_chars raw).*1) as Hkeys.
  { by rewrite paths_keys, Hleaves, parse_file_letters. }
  exists t. rewrite Ht. split_and!; [done..|].
  cbn [mbind outcome_bind].
  rewrite traverse_tree_paths
    by (rewrite Hleaves; apply parse_file_bitstring).
  rewrite dict_of_items_NoDup; [done|].
  rewrite Hkeys. apply count_chars_NoDup.
Qed.

Lemma huffman_encode_returns raw hf :
  huffman_encode raw = Returns hf ->
  raw <> [] /\
  exists t,
    Huf_letters hf = paths t [] /\
    leaves t ≡ₚ parse_file raw /\
    (paths t []).*1 ≡ₚ (count_chars raw).*1 /\
    mapM (dict_get (paths t [])) raw = Some (Huf_encode hf).
Proof.
  destruct raw as [|c raw]; [done|]. intros Hhf. split; [done|].
  destruct (huffman_encode_tree (c :: raw)) as (t & _ & Hl & Hk & Henc);
    [done|].
  rewrite Henc in Hhf. exists t.
  destruct (mapM (dict_get (paths t [])) (c :: raw)) as [enc|]; [|done].
  simpl in Hhf. injection Hhf as <-. done.
Qed.

Lemma StronglySorted_weaken {A} (R R' : relation A) (l : list A) :
  (forall x y, R x y -> R' x y) -> StronglySorted R l -> StronglySorted R' l.
Proof.
  intros HR. induction 1 as [|x l _ IH Hx]; constructor; [done|].
  eapply Forall_impl; [exact Hx|]. auto.
Qed.

Lemma count_chars_keys_iff raw c : c ∈ (count_chars raw).*1 <-> c ∈ raw.
Proof.
  split; [|apply count_chars_keys].
  intros ([c' n] & -> & Hin)%list_elem_of_fmap.
  by apply count_chars_elem in Hin as [_ ?].
Qed.

(** Decoding what [huffman_encode] returns gives the list back. *)
Lemma huffman_decode_encode raw hf :
  huffman_encode raw = Returns hf -> huffman_decode hf = raw.
Proof.
  intros (_ & t & Htable & _ & _ & Henc)%huffman_encode_returns.
  unfold huffman_decode. rewrite Htable.
  apply mapM_Some_1 in Henc.
  induction Henc as [|c code raw' enc' Hc _ IH]; [done|].
  csimpl. f_equal; [|by apply IH].
  apply return_key_dict_get; [|done].
  intros k k' v Hk Hk'. destruct (decide (k = k')) as [|Hkk]; [done|].
  destruct (table_incomparable (paths t []) k v k' v) as [[] _]; try done.
  apply paths_prefix_free.
Qed.

(** [reverse_bwt] undoes [bwt_transform]. *)
Lemma reverse_bwt_transform (s : str) :
  s <> [] ->
  exists r, BWT.bwt_transform s = Returns r /\
    BWT.bwt_string r <> [] /\
    BWT.reverse_bwt (BWT.bwt_string r) (BWT.idx_original_string r)
      = Returns s.
Proof.
  intros Hs.
  destruct (table_lasts s Hs) as (bwt & Hbwt & Hlen).
  destruct (index_Some s (sorted_rotations s)) as (i & Hi & Hrow).
  { rewrite table_perm. by apply elem_of_all_rotations. }
  assert (i < length s) as Hlt.
  { rewrite <-(table_length s). by eapply lookup_lt_Some. }
  assert (bwt <> []) as Hbwt_ne by (intros ->; by destruct s).
  exists {| BWT.bwt_string := bwt; BWT.idx_original_string := Z.of_nat i |}.
  unfold BWT.bwt_transform, BWT.reverse_bwt.
  cbn [BWT.bwt_string BWT.idx_original_string].
  rewrite decide_False by done.
  fold (sorted_rotations s). rewrite Hbwt, Hi.
  split_and!; [done..|].
  rewrite decide_False by done.
  destruct (Z.ltb_spec (Z.of_nat i) 0); [lia|].
  destruct (Z.geb_spec (Z.of_nat i) (Z.of_nat (length bwt))); [lia|].
  rewrite Hlen, (rebuild_full s) by done. simpl.
  by rewrite Nat2Z.id, Hrow.
Qed.

Lemma concat_singletons (l : str) :
  concat (map (fun ch : ascii => [ch]) l) = l.
Proof. induction l as [|c l IH]; [done|]. simpl. by rewrite IH. Qed.
End HuffmanMore.

(** X6. [huffman_encode] raises [IndexError] on the empty list and on no
    other; on a non-empty list every entry of [Huf_encode] is the code that
    [Huf_letters] gives to the symbol at that place. *)
Theorem huffman_encode_outcome (raw : list str) :
  match Huffman.huffman_encode raw with
  | Returns hf =>
      raw <> [] /\
      Forall2 (fun c code =>
                 Huffman.dict_get (Huffman.Huf_letters hf) c = Some code)
              raw (Huffman.Huf_encode hf)
  | Raises e => raw = [] /\ e = IndexError
  end.
Proof.
  destruct raw as [|c raw]; [done|].
  destruct (huffman_encode_spec (c :: raw)) as (t & enc & -> & _ & Henc);
    done.
Qed.

(** X7. The code table that [huffman_encode] returns has one entry for
    every symbol that occurs in the list, and no other entry. *)
Theorem huffman_table_symbols (raw : list str) (hf : Huffman.HuffmanDict) :
  Huffman.huffman_encode raw = Returns hf ->
  NoDup (Huffman.Huf_letters hf).*1 /\
  forall c, c ∈ (Huffman.Huf_letters hf).*1 <-> c ∈ raw.
Proof.
  intros (_ & t & -> & _ & Hkeys & _)%huffman_encode_returns.
  split; [rewrite Hkeys; apply count_chars_NoDup|].
  intros c. rewrite Hkeys. apply count_chars_keys_iff.
Qed.

Lemma huffman_table_symbols_witness :
  NoDup [("a" : str, [] : str)].*1 /\
  forall c, c ∈ [("a" : str, [] : str)].*1 <-> c ∈ ["a" : str; "a" : str].
Proof.
  apply (huffman_table_symbols ["a" : str; "a" : str]
           {| Huffman.Huf_encode := [[]; []];
              Huffman.Huf_letters := [("a" : str, [])] |}).
  reflexivity.
Defined.

(** X8. [parse_file] returns one [Letter] for every symbol that occurs in
    the list, with the number of its occurrences as frequency and an empty
    [bitstring]; the letters are in ascending order of frequency and their
    frequencies add up to the length of the list. *)
Theorem parse_file_counts (raw : list str) :
  StronglySorted (fun x y => Huffman.freq x <= Huffman.freq y)
                 (Huffman.parse_file raw) /\
  NoDup (Huffman.letter <$> Huffman.parse_file raw) /\
  (forall l, l ∈ Huffman.parse_file raw <->
     exists c, c ∈ raw /\ l = Huffman.new_Letter c (occurrences c raw)) /\
  sum_list_with Huffman.freq (Huffman.parse_file raw) = length raw.
Proof.
  split_and!.
  - eapply StronglySorted_weaken;
      [|apply sort_sorted; [apply freq_leb_total|apply freq_leb_trans]].
    intros x y. apply Nat.leb_le.
  - rewrite parse_file_letters. apply count_chars_NoDup.
  - intros l. rewrite parse_file_perm, list_elem_of_fmap. split.
    + intros ([c n] & -> & [-> Hc]%count_chars_elem). by exists c.
    + intros (c & Hc & ->). exists (c, occurrences c raw).
      split; [done|]. by apply count_chars_elem.
  - rewrite parse_file_perm, <-count_chars_sum.
    generalize (Huffman.count_chars raw). intros d.
    induction d as [|[c n] d IH]; [done|]. csimpl. by rewrite IH.
Qed.

(** X9. [build_tree] raises [IndexError] on the empty list and on no
    other.  The tree it returns has the letters of the list as its leaves,
    every inner node holds the sum of the frequencies of its children, and
    the root holds the sum of all frequencies. *)
Theorem build_tree_outcome (letters : list Huffman.Letter) :
  match Huffman.build_tree letters with
  | Returns root =>
      leaves root ≡ₚ letters /\ tree_sums root /\
      Huffman.tree_freq root = sum_list_with Huffman.freq letters
  | Raises e => letters = [] /\ e = IndexError
  end.
Proof.
  destruct letters as [|l letters]; [done|].
  destruct (build_tree_spec (l :: letters)) as (t & Ht & Hleaves); [done|].
  rewrite Ht.
  assert (tree_sums t) as Hsums.
  { unfold Huffman.build_tree in Ht.
    pose proof (build_tree_loop_sums _ (Huffman.Leaf <$> l :: letters)
                  eq_refl) as H.
    change (map Huffman.Leaf (l :: letters))
      with (Huffman.Leaf <$> l :: letters) in Ht.
    destruct (Huffman.build_tree_loop (Huffman.Leaf <$> l :: letters))
      as [|t' ts]; [done|].
    injection Ht as ->. eapply Forall_cons_1, H.
    apply Forall_fmap, Forall_forall. by intros. }
  split_and!; [done..|].
  by rewrite tree_sums_freq, Hleaves.
Qed.

(** X10. When two different symbols occur in the list, no symbol gets the
    empty code. *)
Theorem huffman_codes_nonempty (raw : list str) (hf : Huffman.HuffmanDict)
    (a b : str) :
  Huffman.huffman_encode raw = Returns hf ->
  a ∈ raw -> b ∈ raw -> a <> b ->
  forall s c, (s, c) ∈ Huffman.Huf_letters hf -> c <> [].
Proof.
  intros (_ & t & -> & _ & Hkeys & _)%huffman_encode_returns Ha Hb Hab.
  apply count_chars_keys_iff in Ha, Hb. rewrite <-Hkeys in Ha, Hb.
  destruct t as [l|f t1 t2].
  - simpl in Ha, Hb.
    apply list_elem_of_singleton in Ha, Hb. congruence.
  - intros s c Hin ->. simpl in Hin.
    apply elem_of_app in Hin as [Hin|Hin];
      apply (list_elem_of_fmap_2 snd) in Hin; simpl in Hin.
    + pose proof (paths_prefix t1 ([] ++ "0")) as H.
      rewrite Forall_forall in H. by apply H, prefix_nil_inv in Hin.
    + pose proof (paths_prefix t2 ([] ++ "1")) as H.
      rewrite Forall_forall in H. by apply H, prefix_nil_inv in Hin.
Qed.

Lemma huffman_codes_nonempty_witness :
  Huffman.huffman_encode ["a" : str; "b" : str; "a" : str]
    = Returns {| Huffman.Huf_encode := ["1" : str; "0" : str; "1" : str];
                 Huffman.Huf_letters :=
                   [("b" : str, "0" : str); ("a" : str, "1" : str)] |} /\
  ("0" : str) <> [].
Proof.
  split; [reflexivity|].
  refine (huffman_codes_nonempty ["a" : str; "b" : str; "a" : str]
            {| Huffman.Huf_encode := ["1" : str; "0" : str; "1" : str];
               Huffman.Huf_letters :=
                 [("b" : str, "0" : str); ("a" : str, "1" : str)] |}
            "a" "b" _ _ _ _ "b" "0" _).
  - reflexivity.
  - by left.
  - right. by left.
  - discriminate.
  - by left.
Defined.

(** X11. [bwt_huffman_encode] raises [ValueError] when the strings of the
    list join to the empty string, and only then; otherwise
    [bwt_huffman_decode] of its result is the joined string. *)
Theorem bwt_huffman_round_trip (raw : list str) :
  match Huffman.bwt_huffman_encode raw with
  | Returns hf =>
      concat raw <> [] /\
      Huffman.bwt_huffman_decode hf = Returns (concat raw)
  | Raises e => concat raw = [] /\ e = ValueError
  end.
Proof.
  unfold Huffman.bwt_huffman_encode.
  destruct (decide (concat raw = [])) as [Hnil|Hne].
  { by rewrite Hnil. }
  destruct (reverse_bwt_transform _ Hne) as (r & -> & Hr & Hrev).
  cbn [mbind outcome_bind].
  destruct (huffman_encode_spec
              (map (fun ch : ascii => [ch]) (BWT.bwt_string r)))
    as (t & enc & Henc & _); [by destruct (BWT.bwt_string r)|].
  rewrite Henc. cbn [mbind outcome_bind]. split; [done|].
  unfold Huffman.bwt_huffman_decode.
  cbn [Huffman.Huf_dict Huffman.Huf_idx_original_string].
  by rewrite (huffman_decode_encode _ _ Henc), concat_singletons.
Qed.

(** ** lempel_ziv.py *)
Section PathFacts.
Import LZ.

Lemma split_nonempty sep (s : str) : split sep s <> [].
Proof.
  induction s as [|c s IH]; simpl; [done|].
  destruct (decide (c = sep)); [done|]. by destruct (split sep s).
Qed.

Lemma split_no_sep sep (s : str) : sep ∉ s -> split sep s = [s].
Proof.
  induction s as [|c s IH]; [done|].
  intros [Hc Hs]%not_elem_of_cons. simpl.
  rewrite decide_False by done. by rewrite IH.
Qed.

Lemma split_app_sep sep (a b : str) :
  split sep (a ++ sep :: b) = split sep a ++ split sep b.
Proof.
  induction a as [|c a IH]; simpl.
  - by rewrite decide_True.
  - destruct (decide (c = sep)); [by rewrite IH|].
    rewrite IH. pose proof (split_nonempty sep a).
    by destruct (split sep a).
Qed.

Lemma join_snoc (sep : str) (l : list str) (w : str) :
  l <> [] -> join sep (l ++ [w]) = join sep l ++ sep ++ w.
Proof.
  induction l as [|x l IH]; [done|]. intros _.
  destruct l as [|y l]; [done|].
  change (join sep ((x :: y :: l) ++ [w]))
    with (x ++ sep ++ join sep ((y :: l) ++ [w])).
  rewrite IH by done.
  change (join sep (x :: y :: l)) with (x ++ sep ++ join sep (y :: l)).
  by rewrite <-!app_assoc.
Qed.

Lemma join_snoc_app (sep : str) (l : list str) (w x : str) :
  join sep (l ++ [w ++ x]) = join sep (l ++ [w]) ++ x.
Proof.
  destruct (decide (l = [])) as [->|Hne]; [done|].
  rewrite !join_snoc by done. by rewrite <-!app_assoc.
Qed.

(** Joining the parts gives the string back. *)
Lemma join_split sep (s : str) : join [sep] (split sep s) = s.
Proof.
  induction s as [|c s IH]; simpl; [done|].
  pose proof (split_nonempty sep s) as Hne.
  destruct (decide (c = sep)) as [->|Hc].
  - destruct (split sep s) as [|w ws] eqn:Hs; [done|].
    change (join [sep] ([] :: w :: ws))
      with ([] ++ [sep] ++ join [sep] (w :: ws)).
    by rewrite IH.
  - destruct (split sep s) as [|w ws] eqn:Hs; [done|].
    destruct ws as [|w' ws]; simpl in *; by rewrite <-IH.
Qed.

(** The new path of a path with an extension. *)
Lemma destination_path_ext (suffix extension stem ext : str) :
  "."%char ∉ ext ->
  destination_path suffix extension (stem ++ "." ++ ext)
  = Returns (stem ++ suffix ++ "." ++ extension).
Proof.
  intros Hext. unfold destination_path. cbv zeta.
  change (stem ++ "." ++ ext) with (stem ++ "."%char :: ext).
  rewrite split_app_sep, (split_no_sep _ ext) by done.
  pose proof (split_nonempty "." stem) as Hne.
  pose proof (join_split "." stem) as Hjoin.
  destruct (split "." stem) as [|w ws _] using rev_ind; [done|].
  unfold get_from_end, set_from_end.
  rewrite !length_app. cbn [length].
  rewrite decide_True by lia.
  replace (length ws + 1 + 1 - 2) with (length ws) by lia.
  rewrite <-app_assoc, lookup_app_r by lia.
  rewrite Nat.sub_diag. cbn [app lookup list_lookup of_option mbind outcome_bind].
  rewrite decide_True by lia.
  rewrite insert_app_r_alt, Nat.sub_diag by lia.
  cbn [insert list_insert mbind outcome_bind].
  rewrite length_app. cbn [length].
  rewrite decide_True by lia.
  replace (length ws + 2 - 1) with (length ws + 1) by lia.
  rewrite insert_app_r_alt by lia.
  replace (length ws + 1 - length ws) with 1 by lia.
  cbn [insert list_insert mbind outcome_bind].
  f_equal.
  change (ws ++ [w ++ suffix; extension])
    with (ws ++ [w ++ suffix] ++ [extension]).
  rewrite app_assoc, join_snoc by (by destruct ws).
  rewrite join_snoc_app.
  change (join "." (ws ++ [w])) with (join ["."%char] (ws ++ [w])).
  rewrite Hjoin. by rewrite <-!app_assoc.
Qed.

(** A path without ["."] has no name in front of the extension. *)
Lemma destination_path_no_ext (suffix extension source_path : str) :
  "."%char ∉ source_path ->
  destination_path suffix extension source_path = Raises IndexError.
Proof.
  intros Hp. unfold destination_path. cbv zeta.
  by rewrite split_no_sep.
Qed.
End PathFacts.

Section CoderMore.
Import LZ.

Lemma bits_widen b (c : str) : bits c -> bits (widen b c).
Proof. destruct b; [|done]. intros Hc. constructor; [apply is_bit_0|done]. Qed.

Lemma bits_snoc (s : str) c : bits (s ++ [c]) <-> bits s /\ is_bit c.
Proof. rewrite bits_app. unfold bits. by rewrite Forall_singleton. Qed.

(** *** The alphabet of the codes and of the strings *)

Lemma add_key_values (L : gmap str str) cur idx (c0 : str) :
  (forall s c, L !! s = Some c -> bits c) -> bits c0 ->
  forall s c, add_key_to_lexicon L cur idx c0 !! s = Some c -> bits c.
Proof.
  intros HL Hc0 s c. rewrite lookup_add_key.
  case_decide; [intros [= <-]; apply bin_pos_bits|].
  intros (c' & Hc' & ->)%fmap_Some. apply bits_widen.
  case_decide; [by injection Hc' as <-|].
  case_decide; [done|]. by eapply HL.
Qed.

Lemma add_code_values (D : gmap str str) code idx (s0 : str) :
  (forall c s, D !! c = Some s -> bits s) -> bits s0 ->
  forall c s, add_code_to_lexicon D code idx s0 !! c = Some s -> bits s.
Proof.
  intros HD Hs0 c s. unfold add_code_to_lexicon. cbv zeta.
  intros [[_ <-]|[_ H]]%lookup_insert_Some.
  { apply bits_snoc. split; [done|apply is_bit_1]. }
  assert (exists c', <[code := s0 ++ "0"]> D !! c' = Some s) as [c' Hc'].
  { destruct (log2_is_integer idx); [|by exists c].
    apply (lookup_kmap_Some (fun k : str => "0" ++ k)) in H
      as (c' & _ & H). by exists c'. }
  apply lookup_insert_Some in Hc' as [[_ <-]|[_ Hc']].
  - apply bits_snoc. split; [done|apply is_bit_0].
  - by eapply HD.
Qed.

Lemma initial_values (s c : str) : lexicon initial !! s = Some c -> bits c.
Proof.
  unfold initial. cbn [lexicon].
  intros [[_ <-]|[_ [_ <-]%lookup_singleton_Some]]%lookup_insert_Some.
  - apply Forall_singleton, is_bit_0.
  - apply Forall_singleton, is_bit_1.
Qed.

Lemma compress_scan_bits (b : str) : forall st : state,
  (forall s c, lexicon st !! s = Some c -> bits c) -> bits (result st) ->
  (forall s c, lexicon (foldl compress_step st b) !! s = Some c -> bits c) /\
  bits (result (foldl compress_step st b)).
Proof.
  induction b as [|x b IH]; intros st HL Hres; [done|].
  cbn [foldl]. apply IH; unfold compress_step;
    destruct (lexicon st !! (curr_string st ++ [x])) as [c|] eqn:Hc;
    cbn [lexicon result compress_match]; try done.
  - apply add_key_values; [done|]. by eapply HL.
  - apply bits_app. split; [done|]. by eapply HL.
Qed.

Lemma decompress_scan_bits (x : str) : forall st : state,
  (forall c s, lexicon st !! c = Some s -> bits s) -> bits (result st) ->
  (forall c s, lexicon (foldl decompress_step st x) !! c = Some s -> bits s) /\
  bits (result (foldl decompress_step st x)).
Proof.
  induction x as [|y x IH]; intros st HD Hres; [done|].
  cbn [foldl]. apply IH; unfold decompress_step;
    destruct (lexicon st !! (curr_string st ++ [y])) as [s|] eqn:Hs;
    cbn [lexicon result decompress_match]; try done.
  - apply add_code_values; [done|]. by eapply HD.
  - apply bits_app. split; [done|]. by eapply HD.
Qed.

(** The decoder only ever appends to its result. *)
Lemma decompress_scan_prefix (x : str) : forall st : state,
  result st `prefix_of` result (foldl decompress_step st x).
Proof.
  induction x as [|y x IH]; intros st; [done|].
  cbn [foldl]. etrans; [|apply IH]. unfold decompress_step.
  destruct (lexicon st !! (curr_string st ++ [y])) as [s|];
    cbn [result decompress_match]; [by apply prefix_app_r|done].
Qed.

(** *** Characters other than ["0"] and ["1"] *)

Lemma is_bit_dec (c : ascii) : {is_bit c} + {~ is_bit c}.
Proof.
  destruct (decide (c = "0"%char)) as [->|H0]; [left; apply is_bit_0|].
  destruct (decide (c = "1"%char)) as [->|H1]; [left; apply is_bit_1|].
  right. by intros [?|?].
Qed.

Lemma compress_scan_keys (b : str) : forall st : state,
  (forall s, is_Some (lexicon st !! s) -> bits s) ->
  ~ bits (curr_string st) \/ ~ bits b ->
  (forall s, is_Some (lexicon (foldl compress_step st b) !! s) -> bits s) /\
  ~ bits (curr_string (foldl compress_step st b)).
Proof.
  induction b as [|x b IH]; intros st HK Hbad.
  { destruct Hbad as [?|Hb]; [done|]. destruct Hb. constructor. }
  cbn [foldl]. unfold compress_step.
  destruct (lexicon st !! (curr_string st ++ [x])) as [c|] eqn:Hc.
  - (* a match: the candidate is a bit string *)
    assert (bits (curr_string st ++ [x])) as [Hcur Hx]%bits_snoc
      by (apply HK; eauto).
    apply IH; cbn [lexicon curr_string compress_match].
    + intros s [->|[->|[_ Hs]]]%lookup_add_key_is_Some; [| |by apply HK].
      * apply bits_snoc. split; [by apply bits_snoc|apply is_bit_1].
      * apply bits_snoc. split; [by apply bits_snoc|apply is_bit_0].
    + right. destruct Hbad as [?|Hb]; [done|].
      intros Hb'. apply Hb. by constructor.
  - apply IH; cbn [lexicon curr_string]; [done|].
    destruct (is_bit_dec x) as [Hx|Hx].
    + destruct Hbad as [Hcur|Hb].
      * left. by intros [? _]%bits_snoc.
      * right. intros Hb'. apply Hb. by constructor.
    + left. by intros [_ ?]%bits_snoc.
Qed.

Lemma pad_loop_None (L : gmap str str) fuel : forall cur : str,
  (forall s, is_Some (L !! s) -> bits s) -> ~ bits cur ->
  pad_loop fuel L cur = None.
Proof.
  induction fuel as [|fuel IH]; intros cur HK Hcur.
  - simpl. rewrite decide_False by (intros ->; apply Hcur; constructor).
    destruct (L !! cur) eqn:Hc; [|done]. destruct Hcur. apply HK. eauto.
  - simpl. rewrite decide_False by (intros ->; apply Hcur; constructor).
    destruct (L !! cur) eqn:Hc; [destruct Hcur; apply HK; eauto|].
    apply IH; [done|]. by intros [? _]%bits_app.
Qed.
End CoderMore.

(** X12. On an input with a character other than ["0"] and ["1"],
    [compress_data] does not return: the padding loop runs out of every
    fuel. *)
Theorem compress_data_not_bits (b : str) (fuel : nat) :
  ~ LZ.bits b -> LZ.compress_data fuel b = None.
Proof.
  intros Hb. unfold LZ.compress_data.
  destruct (compress_scan_keys b LZ.initial) as [HK Hcur].
  - intros s [c Hc]. unfold LZ.initial in Hc. cbn [LZ.lexicon] in Hc.
    apply lookup_insert_Some in Hc
      as [[<- _]|[_ [<- _]%lookup_singleton_Some]].
    + apply Forall_singleton, is_bit_0.
    + apply Forall_singleton, is_bit_1.
  - by right.
  - by rewrite pad_loop_None.
Qed.

Lemma compress_data_not_bits_witness : LZ.compress_data 100 "0120" = None.
Proof.
  apply (compress_data_not_bits "0120" 100).
  intros H. do 2 apply Forall_cons in H as [_ H].
  apply Forall_cons in H as [[H|H] _]; discriminate H.
Defined.

Lemma compress_data_out_bits (b : str) (fuel : nat) (out : str) :
  LZ.compress_data fuel b = Some out -> LZ.bits out.
Proof.
  unfold LZ.compress_data.
  destruct (compress_scan_bits b LZ.initial) as [HL Hres];
    [apply initial_values|constructor|].
  destruct (LZ.pad_loop fuel _ _) as [cur|]; [|done].
  cbn [mbind option_bind]. case_decide; [by intros [= <-]|].
  destruct (LZ.lexicon _ !! cur) as [c|] eqn:Hc; [|done].
  cbn [mbind option_bind]. intros [= <-].
  apply bits_app. split; [done|]. by eapply HL.
Qed.

(** X13. What [compress_data] returns is a string of ["0"]s and
    ["1"]s. *)
Theorem compress_data_bits (b : str) (fuel : nat) (out : str) :
  LZ.compress_data fuel b = Some out -> LZ.bits out.
Proof. apply compress_data_out_bits. Qed.

Lemma compress_data_bits_witness : LZ.bits "00110001001".
Proof. apply (compress_data_bits "0101101" 2). reflexivity. Defined.

(** X14. [decompress_data] returns a string of ["0"]s and ["1"]s on every
    argument, and what it returns for a string begins with what it returns
    for any prefix of that string. *)
Theorem decompress_data_bits_prefix (x y : str) :
  LZ.bits (LZ.decompress_data x) /\
  LZ.decompress_data x `prefix_of` LZ.decompress_data (x ++ y).
Proof.
  unfold LZ.decompress_data. split.
  - apply decompress_scan_bits; [apply initial_values|constructor].
  - rewrite foldl_app. apply decompress_scan_prefix.
Qed.

Section FileFacts.
Import LZ.

(** *** Bytes and their eight bits *)

Lemma to_byte_format_08b (b : byte) : to_byte (format_08b b) = Returns b.
Proof. by destruct b. Qed.

Lemma length_format_08b (b : byte) : length (format_08b b) = 8.
Proof. by destruct b. Qed.

Lemma bits_format_08b (b : byte) : bits (format_08b b).
Proof.
  destruct b; vm_compute;
    repeat (apply Forall_cons; split;
            [first [apply is_bit_0|apply is_bit_1]|]);
    by apply Forall_nil.
Qed.

Lemma length_read_file_binary (data : list byte) :
  length (read_file_binary data) = 8 * length data.
Proof.
  induction data as [|b data IH]; [done|].
  unfold read_file_binary in *. simpl.
  rewrite length_app, length_format_08b, IH. lia.
Qed.

Lemma bits_read_file_binary (data : list byte) : bits (read_file_binary data).
Proof.
  induction data as [|b data IH]; [constructor|].
  unfold read_file_binary in *. simpl.
  apply bits_app. split; [apply bits_format_08b|done].
Qed.

(** Writing the bits of [data] followed by more bits writes [data]
    followed by more bytes. *)
Lemma write_after_read (data : list byte) : forall w : str,
  bits w -> data <> [] \/ w <> [] ->
  exists tail,
    write_file_binary (read_file_binary data ++ w) = Returns (data ++ tail) /\
    tail <> [].
Proof.
  induction data as [|b data IH]; intros w Hw Hne.
  - destruct Hne as [?|Hne]; [done|].
    destruct (write_read_file_binary w Hne Hw) as (tail & Htail & Hread).
    exists tail. split; [done|]. intros ->. by destruct w.
  - unfold read_file_binary. cbn [flat_map]. rewrite <-app_assoc.
    fold (read_file_binary data).
    set (rest := read_file_binary data ++ w).
    destruct (decide (rest = [])) as [Hnil|Hrest].
    + apply app_eq_nil in Hnil as [Hd ->].
      assert (data = []) as ->.
      { apply (f_equal length) in Hd.
        rewrite length_read_file_binary in Hd. simpl in Hd.
        apply nil_length_inv. lia. }
      exists ["128"%byte]. split; [|done].
      unfold rest. simpl read_file_binary. rewrite !app_nil_r.
      by destruct b.
    + destruct (IH w Hw) as (tail & Htail & Hne').
      { destruct data; [right|by left].
        intros ->. by apply Hrest. }
      exists tail. split; [|done].
      fold rest in Htail. unfold write_file_binary in *. cbv zeta in *.
      rewrite byte_chunks_long
        by (rewrite length_app, length_format_08b;
            destruct rest; simpl; [done|lia]).
      rewrite take_app_length', drop_app_length'
        by (by rewrite length_format_08b).
      rewrite pad_byte_array_cons by (by apply byte_chunks_nonempty).
      destruct (pad_byte_array 8 (byte_chunks 8 rest)) as [arr|e];
        [|done].
      cbn [mbind outcome_bind] in *. cbn [mapM].
      rewrite to_byte_format_08b. cbn [mbind outcome_bind].
      by rewrite Htail.
Qed.

(** *** The length field *)

Lemma int2_bin_pos p : int2 (bin_pos p) = Some (Npos p).
Proof.
  unfold int2.
  rewrite decide_False
    by (destruct (bin_pos_head p) as [tl ->]; done).
  induction p as [p IH|p IH|]; simpl; [| |done];
    rewrite foldl_app, IH; simpl; f_equal; lia.
Qed.
End FileFacts.

(** X15. On a bit string, [write_file_binary] raises [IndexError] when the
    string is empty and writes [len // 8 + 1] bytes otherwise; read back
    with [read_file_binary], the bytes are the string followed by a ["1"]
    and ["0"]s up to the byte boundary. *)
Theorem write_file_binary_outcome (to_write : str) :
  LZ.bits to_write ->
  match LZ.write_file_binary to_write with
  | Returns data =>
      to_write <> [] /\
      length data = length to_write / 8 + 1 /\
      LZ.read_file_binary data =
        to_write ++
        "1"%char :: replicate (7 - length to_write mod 8) "0"%char
  | Raises e => to_write = [] /\ e = IndexError
  end.
Proof.
  intros Hbits. destruct (decide (to_write = [])) as [->|Hne]; [done|].
  destruct (write_read_file_binary to_write Hne Hbits)
    as (data & -> & Hread).
  split_and!; [done| |done].
  apply (f_equal length) in Hread.
  rewrite length_read_file_binary, length_app in Hread.
  cbn [length] in Hread. rewrite length_replicate in Hread.
  pose proof (Nat.mod_upper_bound (length to_write) 8) as Hm.
  pose proof (Nat.div_mod_eq (length to_write) 8) as Hd.
  lia.
Qed.

Lemma write_file_binary_outcome_witness :
  match LZ.write_file_binary "101" with
  | Returns data =>
      list_ascii_of_string "101" <> [] /\
      length data = length (list_ascii_of_string "101") / 8 + 1 /\
      LZ.read_file_binary data =
        list_ascii_of_string "101" ++
        "1"%char ::
        replicate (7 - length (list_ascii_of_string "101") mod 8) "0"%char
  | Raises e => list_ascii_of_string "101" = [] /\ e = IndexError
  end.
Proof.
  apply (write_file_binary_outcome "101").
  repeat (apply Forall_cons; split;
          [first [apply is_bit_0|apply is_bit_1]|]).
  by apply Forall_nil.
Defined.

(** X16. Writing the bits of a non-empty file writes the file with one
    more byte, 128: the end marker of a bit string that ends on a byte
    boundary. *)
Theorem write_read_bytes_marker (data : list byte) :
  data <> [] ->
  LZ.write_file_binary (LZ.read_file_binary data)
  = Returns (data ++ ["128"%byte]).
Proof.
  intros Hne.
  destruct (write_after_read data [] (Forall_nil_2 _)) as (tail & Hw & _);
    [by left|].
  rewrite app_nil_r in Hw. rewrite Hw. do 2 f_equal.
  assert (LZ.bits (LZ.read_file_binary data)) as Hbits
    by apply bits_read_file_binary.
  assert (LZ.read_file_binary data <> []) as Hne'.
  { intros H%(f_equal length). rewrite length_read_file_binary in H.
    destruct data; simpl in *; [done|lia]. }
  destruct (write_read_file_binary _ Hne' Hbits) as (data' & Hw' & Hread).
  rewrite Hw in Hw'. injection Hw' as <-.
  rewrite length_read_file_binary in Hread.
  replace (8 * length data) with (length data * 8) in Hread by lia.
  rewrite Nat.Div0.mod_mul in Hread.
  unfold LZ.read_file_binary in Hread. rewrite flat_map_app in Hread.
  apply app_inv_head in Hread.
  destruct tail as [|b tail].
  { discriminate Hread. }
  simpl in Hread. apply (f_equal length) in Hread as Hlen.
  rewrite length_app, length_format_08b in Hlen. simpl in Hlen.
  destruct tail as [|b' tail];
    [|simpl in Hlen; rewrite length_app, length_format_08b in Hlen; lia].
  simpl in Hread. rewrite app_nil_r in Hread. f_equal.
  destruct b; try discriminate Hread. reflexivity.
Qed.

Lemma write_read_bytes_marker_witness :
  LZ.write_file_binary (LZ.read_file_binary ["a"%byte; "b"%byte])
  = Returns (["a"%byte; "b"%byte] ++ ["128"%byte]).
Proof. apply (write_read_bytes_marker ["a"%byte; "b"%byte]). discriminate. Defined.

(** X17. [remove_prefix] undoes [add_file_length] for every file length
    but 0: the prefix of an empty file is ["0"], and [remove_prefix] then
    takes the payload up to its first ["1"] for the prefix and cuts
    [2 * c + 2] of its characters off. *)
Theorem remove_prefix_add_file_length_cases (compressed : str) :
  (forall file_length, (0 < file_length)%N ->
     LZ.remove_prefix (LZ.add_file_length file_length compressed)
     = compressed) /\
  LZ.remove_prefix (LZ.add_file_length 0 compressed)
  = drop (2 * LZ.count_prefix compressed + 2) compressed.
Proof.
  split.
  - intros [|p] Hp; [lia|]. apply remove_prefix_add_file_length.
  - unfold LZ.remove_prefix, LZ.add_file_length. simpl.
    rewrite drop_drop. f_equal. lia.
Qed.

Lemma remove_prefix_add_file_length_cases_witness :
  LZ.remove_prefix (LZ.add_file_length 5 "0110")
    = list_ascii_of_string "0110" /\
  LZ.remove_prefix (LZ.add_file_length 0 "0110")
    = drop (2 * LZ.count_prefix "0110" + 2) (list_ascii_of_string "0110").
Proof.
  destruct (remove_prefix_add_file_length_cases "0110") as [Hpos Hzero].
  split; [apply Hpos; reflexivity|exact Hzero].
Defined.

(** X18. The length field can be read back: in front of the payload there
    are as many ["0"]s as the binary numeral of the file length has digits
    after the first, and then that numeral. *)
Theorem add_file_length_decodes (file_length : N) (compressed : str) :
  (0 < file_length)%N ->
  let framed := LZ.add_file_length file_length compressed in
  let counter := LZ.count_prefix framed in
  S counter = length (LZ.bin file_length) /\
  LZ.int2 (take (counter + 1) (drop counter framed)) = Some file_length.
Proof.
  intros Hpos. destruct file_length as [|p]; [lia|]. cbv zeta.
  unfold LZ.add_file_length. simpl.
  destruct (bin_pos_head p) as [tl Hp]. rewrite Hp.
  cbn [length app]. rewrite Nat.sub_succ, Nat.sub_0_r.
  rewrite count_prefix_zeros. split; [done|].
  rewrite drop_app_length' by (by rewrite length_replicate).
  rewrite Nat.add_1_r.
  change ("1"%char :: tl ++ compressed)
    with (("1"%char :: tl) ++ compressed).
  rewrite take_app_length' by done.
  rewrite <-Hp. apply int2_bin_pos.
Qed.

Lemma add_file_length_decodes_witness :
  let framed := LZ.add_file_length 13 "0110" in
  let counter := LZ.count_prefix framed in
  S counter = length (LZ.bin 13) /\
  LZ.int2 (take (counter + 1) (drop counter framed)) = Some 13%N.
Proof. apply (add_file_length_decodes 13 "0110"). reflexivity. Defined.

Section ArchiveFacts.
Import LZ.

Lemma ziv_no_dot : "."%char ∉ list_ascii_of_string "ziv".
Proof.
  intros H. repeat (apply elem_of_cons in H as [H|H]; [discriminate H|]).
  by apply elem_of_nil in H.
Qed.

Lemma read_zero_bytes n :
  read_file_binary (replicate n "000"%byte) = replicate (8 * n) "0"%char.
Proof.
  induction n as [|n IH]; [done|].
  replace (8 * S n) with (8 + 8 * n) by lia.
  unfold read_file_binary in *. simpl replicate at 1. cbn [flat_map].
  rewrite IH. by rewrite replicate_add.
Qed.

Lemma count_prefix_all_zeros m : count_prefix (replicate m "0"%char) = m.
Proof. induction m as [|m IH]; simpl; [done|]. by rewrite IH. Qed.
End ArchiveFacts.

(** X19. A path without a ["."] makes [lz_compress] and [lz_decompress]
    raise [IndexError], whatever the file holds: the list of the parts of
    the path has no element before the last. *)
Theorem lz_path_without_extension
    (source_path file_format : str) (data : list byte) (fuel : nat) :
  "."%char ∉ source_path ->
  LZ.lz_compress fuel source_path data = Some (Raises IndexError) /\
  LZ.lz_decompress source_path file_format data = Raises IndexError.
Proof.
  intros Hp. unfold LZ.lz_compress, LZ.lz_decompress.
  by rewrite !destination_path_no_ext.
Qed.

Lemma lz_path_without_extension_witness :
  LZ.lz_compress 0 "README" ["a"%byte] = Some (Raises IndexError) /\
  LZ.lz_decompress "README" "md" ["a"%byte] = Raises IndexError.
Proof.
  apply (lz_path_without_extension "README" "md" ["a"%byte] 0).
  intros H. repeat (apply elem_of_cons in H as [H|H]; [discriminate H|]).
  by apply elem_of_nil in H.
Defined.

(** X20. Compressing a non-empty file and decompressing the result does
    not give the file back: [lz_compress] writes to
    [<name>_compressed.ziv], [lz_decompress] of that file writes to
    [<name>_compressed_decompressed.<file_format>], and what it writes
    begins with the bytes of the original file and has at least one byte
    more. *)
Theorem lz_file_round_trip
    (stem ext file_format : str) (data : list byte) (fuel : nat) :
  "."%char ∉ ext -> data <> [] -> 8 * length data <= fuel ->
  exists written data',
    LZ.lz_compress fuel (stem ++ "." ++ ext) data
      = Some (Returns (stem ++ "_compressed" ++ "." ++ "ziv", written)) /\
    LZ.lz_decompress (stem ++ "_compressed" ++ "." ++ "ziv") file_format
                     written
      = Returns (stem ++ "_compressed" ++ "_decompressed" ++ "."
                 ++ file_format, data') /\
    data `prefix_of` data' /\ length data < length data'.
Proof.
  intros Hext Hne Hfuel. unfold LZ.lz_compress, LZ.lz_decompress.
  rewrite (destination_path_ext "_compressed" "ziv" stem ext Hext).
  destruct (compress_decompress (LZ.read_file_binary data) fuel)
    as (out & k & Hout & Hdec & _);
    [apply bits_read_file_binary|rewrite length_read_file_binary; lia|].
  rewrite Hout. cbn [mbind option_bind].
  destruct (N.of_nat (length data)) as [|p] eqn:Hlen;
    [destruct data; [done|simpl in Hlen; lia]|].
  set (framed := LZ.add_file_length (N.pos p) out).
  assert (LZ.bits out) as Hbout by (by eapply compress_data_out_bits).
  assert (LZ.bits framed) as Hbf.
  { unfold framed, LZ.add_file_length. simpl.
    apply bits_app. split; [apply bits_replicate_0|].
    apply bits_app. split; [apply bin_pos_bits|done]. }
  assert (framed <> []) as Hnf.
  { unfold framed, LZ.add_file_length. simpl.
    destruct (bin_pos_head p) as [tl ->].
    intros H%(f_equal length). rewrite !length_app in H. simpl in H. lia. }
  destruct (write_read_file_binary framed Hnf Hbf)
    as (written & Hw & Hread).
  set (marker := "1"%char :: replicate (7 - length framed `mod` 8) "0"%char)
    in Hread.
  assert (LZ.remove_prefix (LZ.read_file_binary written) = out ++ marker)
    as Hrp.
  { rewrite Hread. unfold framed, LZ.add_file_length. rewrite <-!app_assoc.
    apply (remove_prefix_add_file_length p (out ++ marker)). }
  destruct (decompress_scan_prefix marker (foldl LZ.decompress_step
                                                 LZ.initial out))
    as [w Hw'].
  rewrite <-foldl_app in Hw'.
  fold (LZ.decompress_data (out ++ marker)) in Hw'.
  fold (LZ.decompress_data out) in Hw'.
  rewrite Hdec, <-app_assoc in Hw'.
  assert (LZ.bits (LZ.decompress_data (out ++ marker))) as Hbd.
  { apply decompress_scan_bits; [apply initial_values|constructor]. }
  rewrite Hw' in Hbd. apply bits_app in Hbd as [_ Hbw].
  destruct (write_after_read data _ Hbw) as (tail & Htail & Hnt);
    [by left|].
  exists written, (data ++ tail). split_and!.
  - by rewrite Hw.
  - rewrite (app_assoc stem "_compressed").
    rewrite (destination_path_ext "_decompressed" file_format
               (stem ++ "_compressed") "ziv" ziv_no_dot).
    cbn [mbind outcome_bind]. cbv zeta.
    rewrite Hrp, Hw', Htail. cbn [mbind outcome_bind].
    by rewrite <-!app_assoc.
  - by apply prefix_app_r.
  - rewrite length_app. destruct tail; simpl; [done|lia].
Qed.

Lemma lz_file_round_trip_witness :
  exists written data',
    LZ.lz_compress 16 (list_ascii_of_string "./README" ++ "." ++ "md")
                   ["a"%byte; "b"%byte]
      = Some (Returns (list_ascii_of_string "./README" ++ "_compressed"
                       ++ "." ++ "ziv", written)) /\
    LZ.lz_decompress (list_ascii_of_string "./README" ++ "_compressed"
                      ++ "." ++ "ziv") "txt" written
      = Returns (list_ascii_of_string "./README" ++ "_compressed"
                 ++ "_decompressed" ++ "." ++ "txt", data') /\
    ["a"%byte; "b"%byte] `prefix_of` data' /\
    length ["a"%byte; "b"%byte] < length data'.
Proof.
  apply (lz_file_round_trip "./README" "md" "txt" ["a"%byte; "b"%byte] 16).
  - intros H. repeat (apply elem_of_cons in H as [H|H]; [discriminate H|]).
    by apply elem_of_nil in H.
  - discriminate.
  - simpl. lia.
Defined.

(** X21. A compressed file that holds zero bytes only, or nothing, makes
    [lz_decompress] raise [IndexError]: nothing is left behind the
    prefix, so nothing is decoded, and [write_file_binary] looks for the
    last element of an empty list. *)
Theorem lz_decompress_zero_file
    (stem ext file_format : str) (n : nat) :
  "."%char ∉ ext ->
  LZ.lz_decompress (stem ++ "." ++ ext) file_format
                   (replicate n "000"%byte)
  = Raises IndexError.
Proof.
  intros Hext. unfold LZ.lz_decompress.
  rewrite (destination_path_ext _ _ _ _ Hext).
  cbn [mbind outcome_bind]. cbv zeta.
  rewrite read_zero_bytes. unfold LZ.remove_prefix.
  rewrite count_prefix_all_zeros.
  rewrite (drop_ge (replicate _ _)) by (by rewrite length_replicate).
  by rewrite drop_nil.
Qed.

Lemma lz_decompress_zero_file_witness :
  LZ.lz_decompress (list_ascii_of_string "a" ++ "." ++ "ziv") "md"
                   (replicate 3 "000"%byte)
  = Raises IndexError.
Proof.
  apply (lz_decompress_zero_file "a" "ziv" "md" 3).
  intros H. repeat (apply elem_of_cons in H as [H|H]; [discriminate H|]).
  by apply elem_of_nil in H.
Defined.
